(** * wrstat: the dgut tree query engine (tree.go)

    A shallow embedding of [Tree.DirInfo], [Tree.where0] and [Tree.Where]
    together with the properties the specification states about them.

    The database ([DB.DirInfo], [DB.Children]) and Go's [sort.Sort] are not
    part of the embedded sources: the database is a parameter of every
    definition, and [sort.Sort] is an interface carrying its documented
    contract. *)

From Stdlib Require Import List String NArith ZArith Lia Bool Arith.
From Stdlib Require Import Sorting.Permutation Sorting.Sorted.
Import ListNotations.
Open Scope string_scope.
Open Scope list_scope.

Set Implicit Arguments.

(** ** Data model *)

(** [DirCountSize]: nested file count and size of one directory.
    [Count] and [Size] are [uint64]; the code only compares them, so they
    are kept as [N] and no wrap-around arises. *)
Record DirCountSize : Type := mkDCS {
  Dir : string;
  Count : N;
  Size : N
}.

(** [DCSs] is a size-sortable slice of [DirCountSize]. *)
Definition DCSs : Type := list DirCountSize.

(** [DCSs.Less]: [d[i].Size > d[j].Size]. *)
Definition DCSs_Less (di dj : DirCountSize) : bool := (Size dj <? Size di)%N.

(** [DirInfo]: a directory and its immediate children. *)
Record DirInfo : Type := mkDI {
  Current : DirCountSize;
  Children : list DirCountSize
}.

(** [DirInfo.IsSameAsChild]:
    [len(d.Children) == 1 && d.Children[0].Count == d.Current.Count]. *)
Definition IsSameAsChild (d : DirInfo) : bool :=
  (List.length (Children d) =? 1)%nat &&
  match nth_error (Children d) 0 with
  | Some c => (Count c =? Count (Current d))%N
  | None => false
  end.

(** ** Outcomes of a call

    A Go call either returns, panics (here: a nil pointer dereference), or
    keeps looping; the last is modelled by a loop budget that runs out. *)
Inductive run (A : Type) : Type :=
| Done (a : A)
| Panic
| OutOfFuel.
Arguments Panic {A}.
Arguments OutOfFuel {A}.

Definition bind {A B : Type} (m : run A) (k : A -> run B) : run B :=
  match m with
  | Done a => k a
  | Panic => Panic
  | OutOfFuel => OutOfFuel
  end.

Notation "x <- m ;; k" := (bind m (fun x => k))
  (at level 61, m at next level, right associativity).

(** ** The database, as the tree code uses it *)

(** [DB.DirInfo(dir, filter)] yields count and size or an error;
    [DB.Children(dir)] yields the child paths of [dir]. *)
Record DB (Filter error : Type) : Type := mkDB {
  db_DirInfo : string -> Filter -> error + (N * N);
  db_Children : string -> list string
}.

(** [sort.Sort] on a [DCSs]: it permutes the slice so that no later element
    is [Less] than an earlier one; the order of ties is not fixed. *)
Definition sorted_by_Less (l : DCSs) : Prop :=
  StronglySorted (fun a b => DCSs_Less b a = false) l.

Record Sorter : Type := mkSorter {
  sort_Sort : DCSs -> DCSs;
  sort_perm : forall l, Permutation (sort_Sort l) l;
  sort_sorted : forall l, sorted_by_Less (sort_Sort l)
}.

(** ** The tree queries *)

Section Tree.

Variables Filter error : Type.
Variable db : DB Filter error.
Variable sorter : Sorter.

(** [Tree.getDirCountSizeInfo]. *)
Definition getDirCountSizeInfo (dir : string) (filter : Filter)
  : error + DirCountSize :=
  match db_DirInfo db dir filter with
  | inl err => inl err
  | inr (c, s) => inr (mkDCS dir c s)
  end.

(** [Tree.addChildInfo]: appends to [di.Children] in place, so the children
    gathered before a failing lookup stay in [di]; the returned pair is the
    updated [di] and the error. *)
Fixpoint addChildInfo (di : DirInfo) (children : list string) (filter : Filter)
  : DirInfo * option error :=
  match children with
  | [] => (di, None)
  | child :: rest =>
      match getDirCountSizeInfo child filter with
      | inl errc => (di, Some errc)
      | inr dcs =>
          if (0 <? Count dcs)%N
          then addChildInfo (mkDI (Current di) (Children di ++ [dcs])) rest filter
          else addChildInfo di rest filter
      end
  end.

(** [Tree.DirInfo]: the Go result pair, a [DirInfo] pointer and an error;
    the pointer is nil ([None]) only when the lookup of [dir] itself fails. *)
Definition Tree_DirInfo (dir : string) (filter : Filter)
  : option DirInfo * option error :=
  match getDirCountSizeInfo dir filter with
  | inl err => (None, Some err)
  | inr dcs =>
      let di := mkDI dcs [] in
      let children := db_Children db (Dir (Current di)) in
      let '(di', err) := addChildInfo di children filter in
      (Some di', err)
  end.

(** The loop of [Tree.where0]: [for di.IsSameAsChild() { di, _ = ... }].
    The error of the inner [DirInfo] is dropped; a nil [di] makes the next
    [di.IsSameAsChild()] panic. *)
Fixpoint where0_loop (fuel : nat) (filter : Filter) (di : DirInfo)
  : run DirInfo :=
  if IsSameAsChild di then
    match fuel with
    | O => OutOfFuel
    | S fuel' =>
        match nth_error (Children di) 0 with
        | None => Panic
        | Some c =>
            match fst (Tree_DirInfo (Dir c) filter) with
            | None => Panic
            | Some di' => where0_loop fuel' filter di'
            end
        end
    end
  else Done di.

(** [Tree.where0]. *)
Definition where0 (fuel : nat) (dir : string) (filter : Filter)
  : run (error + DirInfo) :=
  match Tree_DirInfo dir filter with
  | (Some di, None) =>
      di' <- where0_loop fuel filter di ;;
      Done (inr di')
  | (_, Some err) => Done (inl err)
  | (None, None) => Panic
  end.

(** The inner loop of [Tree.Where]: [for _, dcs := range children]. The
    state is [(dcss, theseChildren)]. *)
Fixpoint Where_children (fuel : nat) (filter : Filter)
  (children : list DirCountSize) (st : DCSs * list DirCountSize)
  : run (DCSs * list DirCountSize) :=
  match children with
  | [] => Done st
  | dcs :: rest =>
      r <- where0 fuel (Dir dcs) filter ;;
      match r with
      | inl _ => Panic
      | inr diChild =>
          Where_children fuel filter rest
            (fst st ++ [Current diChild], snd st ++ Children diChild)
      end
  end.

(** The outer loop of [Tree.Where]: [for i := 0; i < depth; i++]. The state
    is [(dcss, children)]. *)
Fixpoint Where_levels (fuel : nat) (filter : Filter) (n : nat)
  (st : DCSs * list DirCountSize) : run (DCSs * list DirCountSize) :=
  match n with
  | O => Done st
  | S n' =>
      st' <- Where_children fuel filter (snd st) (fst st, []) ;;
      Where_levels fuel filter n' st'
  end.

(** [Tree.Where] up to, and excluding, the final [sort.Sort]. *)
Definition Where_unsorted (fuel : nat) (dir : string) (filter : Filter)
  (depth : Z) : run (error + DCSs * list DirCountSize) :=
  r <- where0 fuel dir filter ;;
  match r with
  | inl err => Done (inl err)
  | inr di =>
      st <- Where_levels fuel filter (Z.to_nat depth)
              ([Current di], Children di) ;;
      Done (inr st)
  end.

(** [Tree.Where]; [depth] is a Go [int], the loop runs [max 0 depth] times. *)
Definition Where (fuel : nat) (dir : string) (filter : Filter) (depth : Z)
  : run (error + DCSs) :=
  r <- Where_unsorted fuel dir filter depth ;;
  match r with
  | inl err => Done (inl err)
  | inr (dcss, _) => Done (inr (sort_Sort sorter dcss))
  end.

End Tree.

(** ** What the specification says about the store

    The tree code trusts the database: the paths listed by [DB.Children]
    were discovered by the build, so their lookups succeed, and they lie
    strictly below their parent in a finite directory tree. *)

Section Store.

Variables Filter error : Type.
Variable db : DB Filter error.

(** [dir] was discovered: its lookup does not fail. *)
Definition known (filter : Filter) (dir : string) : Prop :=
  exists cs, db_DirInfo db dir filter = inr cs.

(** Every path of the children index is a discovered directory. *)
Definition children_known (filter : Filter) : Prop :=
  forall d c, In c (db_Children db d) -> known filter c.

(** The children index is a finite tree: [rank] bounds the height of the
    subtree below a directory. *)
Definition children_below (rank : string -> nat) : Prop :=
  forall d c, In c (db_Children db d) -> rank c < rank d.

(** Monotonic containment, for immediate children. *)
Definition monotonic_containment (filter : Filter) : Prop :=
  forall d c n s m t,
    In c (db_Children db d) ->
    db_DirInfo db d filter = inr (n, s) ->
    db_DirInfo db c filter = inr (m, t) ->
    (m <= n)%N.

(** A lookup that matches no file sums no bytes. *)
Definition empty_match_no_bytes (filter : Filter) : Prop :=
  forall d s, db_DirInfo db d filter = inr (0%N, s) -> s = 0%N.

(** Step 2 of the specification's [DirInfo]: the children of the index whose
    filtered count is positive, each with its count and size. *)
Definition qualifying (filter : Filter) (children : list string)
  : list DirCountSize :=
  flat_map
    (fun c =>
       match db_DirInfo db c filter with
       | inr (n, s) => if (0 <? n)%N then [mkDCS c n s] else []
       | inl _ => []
       end)
    children.

(** The [DirInfo] the specification describes for a discovered [dir]. *)
Definition dirinfo_of (filter : Filter) (dir : string) (n s : N) : DirInfo :=
  mkDI (mkDCS dir n s) (qualifying filter (db_Children db dir)).

(** [di] is what [Tree.DirInfo] returns, without error, for its own
    directory. *)
Definition is_DirInfo (filter : Filter) (di : DirInfo) : Prop :=
  Tree_DirInfo db (Dir (Current di)) filter = (Some di, None).

(** The pass-through condition in the specification's words: exactly one
    qualifying child, whose filtered count equals the directory's. *)
Definition pass_through (di : DirInfo) : Prop :=
  exists c, Children di = [c] /\ Count c = Count (Current di).

(** The specification's [collapse], as a relation between the [DirInfo] it
    starts from and the one it ends with. *)
Inductive collapses_to (filter : Filter) : DirInfo -> DirInfo -> Prop :=
| collapse_stop : forall di,
    ~ pass_through di ->
    collapses_to filter di di
| collapse_step : forall di c di' dj,
    Children di = [c] ->
    Count c = Count (Current di) ->
    Tree_DirInfo db (Dir c) filter = (Some di', None) ->
    collapses_to filter di' dj ->
    collapses_to filter di dj.

End Store.

(** ** Basic facts *)

Lemma IsSameAsChild_true (d : DirInfo) :
  IsSameAsChild d = true <->
  exists c, Children d = [c] /\ Count c = Count (Current d).
Proof.
  unfold IsSameAsChild. destruct (Children d) as [|c [|c' l]]; simpl.
  - split; [discriminate | intros (c & H & _); discriminate].
  - rewrite N.eqb_eq. split.
    + intros H. exists c. auto.
    + intros (c0 & H & E). injection H as ->. exact E.
  - split; [discriminate | intros (c0 & H & _); discriminate].
Qed.

Lemma IsSameAsChild_pass_through (d : DirInfo) :
  IsSameAsChild d = true <-> pass_through d.
Proof. apply IsSameAsChild_true. Qed.

Lemma IsSameAsChild_false (d : DirInfo) :
  IsSameAsChild d = false <-> ~ pass_through d.
Proof.
  rewrite <- IsSameAsChild_pass_through.
  destruct (IsSameAsChild d); split; congruence.
Qed.

(** The specification's collapse reaches one [DirInfo] only. *)
Lemma collapses_to_deterministic (Filter error : Type) (db : DB Filter error)
  (filter : Filter) (di a b : DirInfo) :
  collapses_to db filter di a -> collapses_to db filter di b -> a = b.
Proof.
  intros Ha. revert b.
  induction Ha as [di Hn | di c di' dj Hc Hcount HD _ IH]; intros b Hb.
  - inversion Hb as [? _ | ? c ? ? Hc Hcount _ _]; subst; [reflexivity|].
    exfalso. apply Hn. exists c. auto.
  - inversion Hb as [? Hn | ? c0 di0 ? Hc0 _ HD0 Hrest]; subst.
    + exfalso. apply Hn. exists c. auto.
    + rewrite Hc in Hc0. injection Hc0 as <-.
      rewrite HD in HD0. injection HD0 as <-.
      apply IH. exact Hrest.
Qed.

Section DirInfoFacts.

Variables Filter error : Type.
Variable db : DB Filter error.
Variable filter : Filter.

Lemma In_qualifying (children : list string) (x : DirCountSize) :
  In x (qualifying db filter children) <->
  In (Dir x) children /\
  db_DirInfo db (Dir x) filter = inr (Count x, Size x) /\
  (0 < Count x)%N.
Proof.
  unfold qualifying. rewrite in_flat_map. split.
  - intros (c & Hc & Hx).
    destruct (db_DirInfo db c filter) as [e | [n s]] eqn:E; [contradiction|].
    destruct (0 <? n)%N eqn:P; [|contradiction].
    destruct Hx as [<- | []]. simpl.
    apply N.ltb_lt in P. auto.
  - intros (Hc & E & P). exists (Dir x). split; [exact Hc|].
    rewrite E. apply N.ltb_lt in P. rewrite P.
    left. destruct x; reflexivity.
Qed.

(** With every child lookup succeeding, [addChildInfo] appends the
    qualifying children and reports no error. *)
Lemma addChildInfo_known (children : list string) :
  forall di,
    Forall (known db filter) children ->
    addChildInfo db di children filter =
    (mkDI (Current di) (Children di ++ qualifying db filter children), None).
Proof.
  induction children as [|c rest IH]; intros di H.
  - simpl. rewrite app_nil_r. destruct di; reflexivity.
  - inversion H as [|? ? [[n s] Hc] Hrest]; subst.
    simpl. unfold getDirCountSizeInfo. rewrite Hc. simpl.
    destruct (0 <? n)%N.
    + rewrite IH by assumption. simpl. rewrite <- app_assoc. reflexivity.
    + rewrite IH by assumption. reflexivity.
Qed.

(** An unknown directory: [Tree.DirInfo] returns nil and the error. *)
Lemma Tree_DirInfo_unknown (dir : string) (err : error) :
  db_DirInfo db dir filter = inl err ->
  Tree_DirInfo db dir filter = (None, Some err).
Proof.
  intros H. unfold Tree_DirInfo, getDirCountSizeInfo. rewrite H. reflexivity.
Qed.

Lemma Tree_DirInfo_known (dir : string) (n s : N) :
  children_known db filter ->
  db_DirInfo db dir filter = inr (n, s) ->
  Tree_DirInfo db dir filter = (Some (dirinfo_of db filter dir n s), None).
Proof.
  intros K H. unfold Tree_DirInfo, getDirCountSizeInfo. rewrite H. simpl.
  rewrite addChildInfo_known.
  - reflexivity.
  - apply Forall_forall. intros c Hc. exact (K _ _ Hc).
Qed.

(** The error of [Tree.DirInfo], whatever the store: it is the error of the
    lookup of [dir], or of the lookup of one of its listed children. *)
Lemma addChildInfo_error (children : list string) :
  forall di di' err,
    addChildInfo db di children filter = (di', Some err) ->
    exists c, In c children /\ db_DirInfo db c filter = inl err.
Proof.
  induction children as [|c rest IH]; intros di di' err H; simpl in H.
  - discriminate.
  - unfold getDirCountSizeInfo in H.
    destruct (db_DirInfo db c filter) as [e | [n s]] eqn:E.
    + injection H as _ ->. exists c. split; [left; reflexivity | exact E].
    + simpl in H. destruct (0 <? n)%N;
        apply IH in H; destruct H as (c' & Hin & Hc');
        exists c'; (split; [right; exact Hin | exact Hc']).
Qed.

End DirInfoFacts.

(** ** Collapsing: [where0] *)

Section Where0Facts.

Variables Filter error : Type.
Variable db : DB Filter error.
Variable filter : Filter.
Variable rank : string -> nat.

Hypothesis Hknown : children_known db filter.
Hypothesis Hbelow : children_below db rank.

(** A qualifying child of a discovered directory is discovered and lies
    strictly below it. *)
Lemma qualifying_child (dir : string) (c : DirCountSize) :
  In c (qualifying db filter (db_Children db dir)) ->
  db_DirInfo db (Dir c) filter = inr (Count c, Size c) /\
  rank (Dir c) < rank dir.
Proof.
  intros H. apply In_qualifying in H. destruct H as (Hin & E & _).
  split; [exact E | exact (Hbelow _ _ Hin)].
Qed.

(** The loop of [where0] on the [DirInfo] of a discovered directory: with a
    budget of at least the rank of the directory it ends, on the [DirInfo]
    of a directory not above the start, with the same count, that is not a
    pass-through; the specification's [collapse] relates start and end. *)
Lemma where0_loop_spec (fuel : nat) :
  forall dir n s,
    db_DirInfo db dir filter = inr (n, s) ->
    rank dir <= fuel ->
    exists dir' s',
      where0_loop db fuel filter (dirinfo_of db filter dir n s) =
        Done (dirinfo_of db filter dir' n s') /\
      db_DirInfo db dir' filter = inr (n, s') /\
      rank dir' <= rank dir /\
      IsSameAsChild (dirinfo_of db filter dir' n s') = false /\
      collapses_to db filter (dirinfo_of db filter dir n s)
                             (dirinfo_of db filter dir' n s') /\
      (IsSameAsChild (dirinfo_of db filter dir n s) = true ->
       rank dir' < rank dir).
Proof.
  induction fuel as [|fuel IH]; intros dir n s E R.
  - destruct (IsSameAsChild (dirinfo_of db filter dir n s)) eqn:Same.
    + exfalso. apply IsSameAsChild_true in Same.
      destruct Same as (c & Hc & _). simpl in Hc.
      assert (Hin : In c (qualifying db filter (db_Children db dir)))
        by (rewrite Hc; left; reflexivity).
      apply qualifying_child in Hin. lia.
    + exists dir, s. simpl. rewrite Same.
      repeat split; auto.
      * apply collapse_stop. apply IsSameAsChild_false. exact Same.
      * discriminate.
  - destruct (IsSameAsChild (dirinfo_of db filter dir n s)) eqn:Same.
    + pose proof Same as Same'. apply IsSameAsChild_true in Same'.
      destruct Same' as (c & Hc & Hcount). simpl in Hc, Hcount.
      assert (Hin : In c (qualifying db filter (db_Children db dir)))
        by (rewrite Hc; left; reflexivity).
      apply qualifying_child in Hin. destruct Hin as (Ec & Rc).
      rewrite Hcount in Ec.
      destruct (IH (Dir c) n (Size c) Ec ltac:(lia))
        as (dir' & s' & Hloop & E' & R' & NS & Hcol & _).
      exists dir', s'. simpl. rewrite Same. simpl. rewrite Hc. simpl.
      rewrite (Tree_DirInfo_known _ Hknown Ec). simpl.
      repeat split; auto; try lia.
      eapply collapse_step with (c := c).
      * exact Hc.
      * exact Hcount.
      * apply (Tree_DirInfo_known _ Hknown Ec).
      * exact Hcol.
    + exists dir, s. simpl. rewrite Same.
      repeat split; auto.
      * apply collapse_stop. apply IsSameAsChild_false. exact Same.
      * discriminate.
Qed.

(** [where0] on a discovered directory. *)
Lemma where0_known (fuel : nat) (dir : string) (n s : N) :
  db_DirInfo db dir filter = inr (n, s) ->
  rank dir <= fuel ->
  exists dir' s',
    where0 db fuel dir filter = Done (inr (dirinfo_of db filter dir' n s')) /\
    db_DirInfo db dir' filter = inr (n, s') /\
    rank dir' <= rank dir /\
    IsSameAsChild (dirinfo_of db filter dir' n s') = false /\
    collapses_to db filter (dirinfo_of db filter dir n s)
                           (dirinfo_of db filter dir' n s') /\
    (IsSameAsChild (dirinfo_of db filter dir n s) = true ->
     rank dir' < rank dir).
Proof.
  intros E R.
  destruct (where0_loop_spec E R) as (dir' & s' & Hloop & Rest).
  exists dir', s'. split; [|exact Rest].
  unfold where0. rewrite (Tree_DirInfo_known _ Hknown E).
  rewrite Hloop. reflexivity.
Qed.

(** [where0] on an unknown directory returns its error. *)
Lemma where0_unknown (fuel : nat) (dir : string) (err : error) :
  db_DirInfo db dir filter = inl err ->
  where0 db fuel dir filter = Done (inl err).
Proof.
  intros E. unfold where0. rewrite (Tree_DirInfo_unknown _ _ _ E). reflexivity.
Qed.

End Where0Facts.

(** ** Facts about [Where] that hold for every store *)

Section WhereAnyStore.

Variables Filter error : Type.
Variable db : DB Filter error.
Variable sorter : Sorter.
Variable filter : Filter.

Lemma bind_Done {A B : Type} (m : run A) (k : A -> run B) (b : B) :
  bind m k = Done b -> exists a, m = Done a /\ k a = Done b.
Proof.
  destruct m as [a| |]; simpl; intros H; try discriminate.
  exists a. auto.
Qed.

(** The inner loop only appends to [dcss]. *)
Lemma Where_children_extends (fuel : nat) (children : list DirCountSize) :
  forall st st',
    Where_children db fuel filter children st = Done st' ->
    exists extra, fst st' = fst st ++ extra.
Proof.
  induction children as [|c rest IH]; intros st st' H; simpl in H.
  - injection H as <-. exists []. rewrite app_nil_r. reflexivity.
  - apply bind_Done in H. destruct H as ([e | di] & _ & H); [discriminate|].
    apply IH in H. destruct H as (extra & H). simpl in H.
    exists ([Current di] ++ extra). rewrite H, app_assoc. reflexivity.
Qed.

(** The outer loop only appends to [dcss]. *)
Lemma Where_levels_extends (fuel n : nat) :
  forall st st',
    Where_levels db fuel filter n st = Done st' ->
    exists extra, fst st' = fst st ++ extra.
Proof.
  induction n as [|n IH]; intros st st' H; simpl in H.
  - injection H as <-. exists []. rewrite app_nil_r. reflexivity.
  - apply bind_Done in H. destruct H as (st1 & H1 & H).
    apply Where_children_extends in H1. destruct H1 as (e1 & H1).
    apply IH in H. destruct H as (e2 & H). simpl in H1.
    exists (e1 ++ e2). rewrite H, H1, app_assoc. reflexivity.
Qed.

(** One more level is one more run of the inner loop on the last
    frontier. *)
Lemma Where_levels_succ (fuel n : nat) :
  forall st,
    Where_levels db fuel filter (S n) st =
    (st' <- Where_levels db fuel filter n st ;;
     Where_children db fuel filter (snd st') (fst st', [])).
Proof.
  induction n as [|n IH]; intros st.
  - simpl. destruct (Where_children db fuel filter (snd st) (fst st, []));
      reflexivity.
  - change (Where_levels db fuel filter (S (S n)) st)
      with (st1 <- Where_children db fuel filter (snd st) (fst st, []) ;;
            Where_levels db fuel filter (S n) st1).
    simpl Where_levels at 2.
    destruct (Where_children db fuel filter (snd st) (fst st, []))
      as [st1| |]; simpl bind; [|reflexivity|reflexivity].
    apply IH.
Qed.

(** A successful [Where] is [sort.Sort] of the entry of the collapsed start
    followed by what the levels appended. *)
Lemma Where_success (fuel : nat) (dir : string) (depth : Z) (l : DCSs) :
  Where db sorter fuel dir filter depth = Done (inr l) ->
  exists di extra,
    where0 db fuel dir filter = Done (inr di) /\
    l = sort_Sort sorter (Current di :: extra).
Proof.
  unfold Where, Where_unsorted. intros H.
  apply bind_Done in H. destruct H as ([e | [dcss fr]] & H & Hl);
    [discriminate|].
  injection Hl as <-.
  apply bind_Done in H. destruct H as ([e | di] & H0 & H); [discriminate|].
  apply bind_Done in H. destruct H as (st & H & Hst).
  injection Hst as ->.
  apply Where_levels_extends in H. destruct H as (extra & H). simpl in H.
  exists di, extra. split; [exact H0 | rewrite H; reflexivity].
Qed.

(** An error of [Where] is the error of its first [where0] call, that is of
    the first [Tree.DirInfo] call. *)
Lemma Where_error (fuel : nat) (dir : string) (depth : Z) (err : error) :
  Where db sorter fuel dir filter depth = Done (inl err) ->
  snd (Tree_DirInfo db dir filter) = Some err.
Proof.
  unfold Where, Where_unsorted. intros H.
  apply bind_Done in H. destruct H as ([e | [dcss fr]] & H & Hl);
    [|discriminate].
  injection Hl as ->.
  apply bind_Done in H. destruct H as ([e | di] & H0 & H).
  - injection H as ->. unfold where0 in H0.
    destruct (Tree_DirInfo db dir filter) as [[di|] [e'|]]; simpl in *;
      try congruence.
    apply bind_Done in H0. destruct H0 as (? & _ & ?). discriminate.
  - apply bind_Done in H. destruct H as (? & _ & ?). discriminate.
Qed.

(** A negative depth runs the outer loop zero times. *)
Lemma Where_negative_depth (fuel : nat) (dir : string) (depth : Z) :
  (depth < 0)%Z ->
  Where db sorter fuel dir filter depth = Where db sorter fuel dir filter 0.
Proof.
  intros H. unfold Where, Where_unsorted.
  replace (Z.to_nat depth) with (Z.to_nat 0) by (simpl; lia). reflexivity.
Qed.

End WhereAnyStore.

(** ** [Where] on a store that meets the specification *)

Section WhereFacts.

Variables Filter error : Type.
Variable db : DB Filter error.
Variable sorter : Sorter.
Variable filter : Filter.
Variable rank : string -> nat.
Variable fuel : nat.

Hypothesis Hknown : children_known db filter.
Hypothesis Hbelow : children_below db rank.

(** An entry of a frontier that [where0] can be run on. *)
Definition frontier_ok (c : DirCountSize) : Prop :=
  known db filter (Dir c) /\ rank (Dir c) <= fuel.

(** What [where0] returns: the [DirInfo] of its own directory, not a
    pass-through, whose children can be expanded in turn. *)
Definition collapsed (di : DirInfo) : Prop :=
  is_DirInfo db filter di /\
  IsSameAsChild di = false /\
  Forall frontier_ok (Children di).

(** [c] is a qualifying child of a directory that has its entry in
    [dcss]. *)
Definition child_of_entry (dcss : DCSs) (c : DirCountSize) : Prop :=
  exists dip,
    In (Current dip) dcss /\ is_DirInfo db filter dip /\ In c (Children dip).

Lemma dirinfo_of_children_ok (dir : string) (n s : N) :
  rank dir <= fuel ->
  Forall frontier_ok (Children (dirinfo_of db filter dir n s)).
Proof.
  intros R. apply Forall_forall. intros c Hc. simpl in Hc.
  destruct (qualifying_child filter Hbelow dir c Hc) as (E & Rc).
  split; [eexists; exact E | lia].
Qed.

Lemma where0_frontier (c : DirCountSize) :
  frontier_ok c ->
  exists di,
    where0 db fuel (Dir c) filter = Done (inr di) /\ collapsed di.
Proof.
  intros ([[n s] E] & R).
  destruct (where0_known Hknown Hbelow _ E R)
    as (dir' & s' & H0 & E' & R' & NS & _).
  exists (dirinfo_of db filter dir' n s'). split; [exact H0|].
  split; [|split].
  - unfold is_DirInfo. simpl. apply (Tree_DirInfo_known _ Hknown E').
  - exact NS.
  - apply dirinfo_of_children_ok. lia.
Qed.

(** The inner loop on an expandable frontier. *)
Lemma Where_children_spec (children : list DirCountSize) :
  forall st,
    Forall frontier_ok children ->
    exists dis,
      Forall2 (fun c di => where0 db fuel (Dir c) filter = Done (inr di))
              children dis /\
      Forall collapsed dis /\
      Where_children db fuel filter children st =
        Done (fst st ++ map Current dis, snd st ++ flat_map Children dis).
Proof.
  induction children as [|c rest IH]; intros st H.
  - exists []. simpl. rewrite !app_nil_r. destruct st. auto.
  - inversion H as [|? ? Hc Hrest]; subst.
    destruct (where0_frontier Hc) as (di & H0 & Hdi).
    destruct (IH (fst st ++ [Current di], snd st ++ Children di) Hrest)
      as (dis & HF & HC & HW).
    exists (di :: dis). split; [|split].
    + constructor; assumption.
    + constructor; assumption.
    + simpl. rewrite H0. simpl. rewrite HW. simpl.
      rewrite <- !app_assoc. reflexivity.
Qed.

(** The invariant of the outer loop. *)
Definition levels_inv (st : DCSs * list DirCountSize) : Prop :=
  Forall frontier_ok (snd st) /\ Forall (child_of_entry (fst st)) (snd st).

Lemma flat_map_children_ok (dis : list DirInfo) :
  Forall collapsed dis -> Forall frontier_ok (flat_map Children dis).
Proof.
  induction 1 as [|di dis (_ & _ & Hd) _ IH]; simpl.
  - constructor.
  - apply Forall_app. split; assumption.
Qed.

Lemma flat_map_children_entries (dcss : DCSs) (dis : list DirInfo) :
  Forall collapsed dis ->
  Forall (child_of_entry (dcss ++ map Current dis)) (flat_map Children dis).
Proof.
  intros H. apply Forall_forall. intros c Hc.
  apply in_flat_map in Hc. destruct Hc as (di & Hdi & Hc).
  rewrite Forall_forall in H. destruct (H _ Hdi) as (HD & _).
  exists di. split; [|split; assumption].
  apply in_or_app. right. apply in_map. exact Hdi.
Qed.

(** One level: every frontier entry is collapsed, its entry appended, and
    its children form the next frontier. *)
Lemma Where_level_step (st : DCSs * list DirCountSize) :
  levels_inv st ->
  exists dis,
    Forall2 (fun c di => where0 db fuel (Dir c) filter = Done (inr di))
            (snd st) dis /\
    Where_children db fuel filter (snd st) (fst st, []) =
      Done (fst st ++ map Current dis, flat_map Children dis) /\
    levels_inv (fst st ++ map Current dis, flat_map Children dis).
Proof.
  intros (Hok & _).
  destruct (Where_children_spec (fst st, []) Hok) as (dis & HF & HC & HW).
  exists dis. split; [exact HF|]. split; [exact HW|].
  split; simpl.
  - apply flat_map_children_ok. exact HC.
  - apply flat_map_children_entries. exact HC.
Qed.

Lemma Where_levels_spec (n : nat) :
  forall st,
    levels_inv st ->
    exists st',
      Where_levels db fuel filter n st = Done st' /\ levels_inv st'.
Proof.
  induction n as [|n IH]; intros st H.
  - exists st. auto.
  - destruct (Where_level_step H) as (dis & _ & HW & HI).
    destruct (IH _ HI) as (st' & HL & HI').
    exists st'. split; [|exact HI'].
    simpl. rewrite HW. simpl. exact HL.
Qed.

(** The state before the outer loop satisfies its invariant. *)
Lemma levels_inv_init (dir : string) (n s : N) :
  db_DirInfo db dir filter = inr (n, s) ->
  rank dir <= fuel ->
  levels_inv ([Current (dirinfo_of db filter dir n s)],
              Children (dirinfo_of db filter dir n s)).
Proof.
  intros E R. split; simpl.
  - apply (@dirinfo_of_children_ok dir n s R).
  - apply Forall_forall. intros c Hc.
    exists (dirinfo_of db filter dir n s). split; [left; reflexivity|].
    split; [|exact Hc].
    unfold is_DirInfo. simpl. apply (Tree_DirInfo_known _ Hknown E).
Qed.

(** [Where], before sorting, on a discovered directory: it returns, and its
    state satisfies the loop invariant. *)
Lemma Where_unsorted_known (dir : string) (n s : N) (depth : Z) :
  db_DirInfo db dir filter = inr (n, s) ->
  rank dir <= fuel ->
  exists dir' s' st,
    where0 db fuel dir filter = Done (inr (dirinfo_of db filter dir' n s')) /\
    Where_levels db fuel filter (Z.to_nat depth)
      ([Current (dirinfo_of db filter dir' n s')],
       Children (dirinfo_of db filter dir' n s')) = Done st /\
    Where_unsorted db fuel dir filter depth = Done (inr st) /\
    levels_inv st.
Proof.
  intros E R.
  destruct (where0_known Hknown Hbelow _ E R)
    as (dir' & s' & H0 & E' & R' & _).
  destruct (Where_levels_spec (Z.to_nat depth)
              (levels_inv_init E' ltac:(lia))) as (st & HL & HI).
  exists dir', s', st.
  split; [exact H0|]. split; [exact HL|]. split; [|exact HI].
  unfold Where_unsorted. rewrite H0. simpl. simpl in HL. rewrite HL.
  reflexivity.
Qed.

End WhereFacts.

(** ** A store to run the queries on *)

Module TableStore.

(** Modelled from the spec: the [Filter] of the absent database code, three
    sets (group ids, user ids, types), each empty to match all. *)
Record Filter : Type := mkFilter {
  GIDs : list N;
  UIDs : list N;
  FTs : list N
}.

(** Modelled from the spec: one stored (group, user, type) combination of
    the absent database code, with its count and total size. *)
Record GUT : Type := mkGUT {
  GID : N;
  UID : N;
  FT : N;
  GCount : N;
  GSize : N
}.

Definition dimension_matches (set : list N) (x : N) : bool :=
  match set with
  | [] => true
  | _ => existsb (N.eqb x) set
  end.

(** Modelled from the spec: [matches(combination, filter)] of the absent
    filter evaluation: every non-empty dimension contains the component. *)
Definition matches (g : GUT) (f : Filter) : bool :=
  dimension_matches (GIDs f) (GID g) &&
  dimension_matches (UIDs f) (UID g) &&
  dimension_matches (FTs f) (FT g).

Inductive error : Type := ErrDirNotFound.

(** Modelled from the spec: the persisted store of the absent database
    code, a table from directory to its combinations and its children. *)
Definition Table : Type := list (string * (list GUT * list string)).

Fixpoint table_get (tbl : Table) (dir : string)
  : option (list GUT * list string) :=
  match tbl with
  | [] => None
  | (d, v) :: rest => if String.eqb d dir then Some v else table_get rest dir
  end.

Definition CountAndSize (guts : list GUT) (f : Filter) : N * N :=
  fold_left
    (fun acc g =>
       if matches g f then (fst acc + GCount g, snd acc + GSize g)%N else acc)
    guts (0%N, 0%N).

(** Modelled from the spec: [lookup(directory, filter)] of the absent
    database code: the sums over the matching combinations, or NotFound. *)
Definition lookup (tbl : Table) (dir : string) (f : Filter)
  : error + (N * N) :=
  match table_get tbl dir with
  | None => inl ErrDirNotFound
  | Some (guts, _) => inr (CountAndSize guts f)
  end.

(** Modelled from the spec: [children(directory)] of the absent database
    code: the linked children, or the empty sequence. *)
Definition children (tbl : Table) (dir : string) : list string :=
  match table_get tbl dir with
  | None => []
  | Some (_, cs) => cs
  end.

Definition store (tbl : Table) : DB Filter error :=
  mkDB (lookup tbl) (children tbl).

(** Executable checks of the store assumptions, one directory at a time. *)
Definition known_b (tbl : Table) (dir : string) : bool :=
  match table_get tbl dir with Some _ => true | None => false end.

Definition children_known_b (tbl : Table) : bool :=
  forallb (fun e => forallb (known_b tbl) (snd (snd e))) tbl.

Definition children_below_b (rank : string -> nat) (tbl : Table) : bool :=
  forallb
    (fun e => forallb (fun c => (rank c <? rank (fst e))%nat) (snd (snd e)))
    tbl.

Definition count_of (tbl : Table) (f : Filter) (dir : string) : N :=
  match lookup tbl dir f with inr (n, _) => n | inl _ => 0%N end.

Definition monotonic_b (tbl : Table) (f : Filter) : bool :=
  forallb
    (fun e =>
       forallb
         (fun c => (count_of tbl f c <=? fst (CountAndSize (fst (snd e)) f))%N)
         (snd (snd e)))
    tbl.

Definition no_bytes_b (tbl : Table) (f : Filter) : bool :=
  forallb
    (fun e =>
       let cs := CountAndSize (fst (snd e)) f in
       negb (fst cs =? 0)%N || (snd cs =? 0)%N)
    tbl.

(** A sorter to run [Where] with: insertion sort by [DCSs.Less], which keeps
    ties in their order, as the insertion sort that [sort.Sort] applies to
    short slices does. *)
Fixpoint insert (x : DirCountSize) (l : DCSs) : DCSs :=
  match l with
  | [] => [x]
  | y :: l' => if DCSs_Less x y then x :: l else y :: insert x l'
  end.

Definition insertion_sort (l : DCSs) : DCSs :=
  fold_left (fun sorted x => insert x sorted) l [].

(** The rank of a path in a table whose paths have at most [bound]
    characters: children are longer than their parent. *)
Definition rank_of (bound : nat) (dir : string) : nat :=
  bound - String.length dir.

(** Scenario A of the specification: six files of one group, user and
    type, below [/a/b]. *)
Definition one (n s : N) : list GUT := [mkGUT 1 354 0 n s].

Definition scenarioA : Table :=
  [ ("/",          (one 6 50, ["/a"]));
    ("/a",         (one 6 50, ["/a/b"]));
    ("/a/b",       (one 6 50, ["/a/b/c"; "/a/b/e"]));
    ("/a/b/c",     (one 4 43, ["/a/b/c/d"]));
    ("/a/b/c/d",   (one 4 43, ["/a/b/c/d/1"; "/a/b/c/d/2"]));
    ("/a/b/c/d/1", (one 1 5, []));
    ("/a/b/c/d/2", (one 2 28, []));
    ("/a/b/e",     (one 2 7, ["/a/b/e/f"]));
    ("/a/b/e/f",   (one 2 7, ["/a/b/e/f/g"]));
    ("/a/b/e/f/g", (one 2 7, [])) ].

(** A store with two children of equal size. *)
Definition twins : Table :=
  [ ("/t",   (one 2 8, ["/t/x"; "/t/y"]));
    ("/t/x", (one 1 4, []));
    ("/t/y", (one 1 4, [])) ].

(** Tables whose children index lists a path that has no entry. *)
Definition ghost_child : Table :=
  [ ("/p", (one 1 1, ["/p/ghost"])) ].

Definition ghost_grandchild : Table :=
  [ ("/q",   (one 3 3, ["/q/r"; "/q/s"]));
    ("/q/r", (one 1 1, ["/q/r/ghost"]));
    ("/q/s", (one 1 1, [])) ].

Definition dbA : DB Filter error := store scenarioA.
Definition rankA : string -> nat := rank_of 10.

Definition all : Filter := mkFilter [] [] [].
Definition user354 : Filter := mkFilter [] [354%N] [].
Definition user999 : Filter := mkFilter [] [999%N] [].

(** *** The checks are sound *)

Lemma table_get_In (tbl : Table) (dir : string) v :
  table_get tbl dir = Some v -> In (dir, v) tbl.
Proof.
  induction tbl as [|[d w] rest IH]; simpl; [discriminate|].
  destruct (String.eqb d dir) eqn:E.
  - apply String.eqb_eq in E. intros H. injection H as ->. subst. auto.
  - auto.
Qed.

Lemma children_get (tbl : Table) (d c : string) :
  In c (children tbl d) ->
  exists guts cs,
    In (d, (guts, cs)) tbl /\ In c cs /\ table_get tbl d = Some (guts, cs).
Proof.
  unfold children. destruct (table_get tbl d) as [[guts cs]|] eqn:E.
  - intros H. exists guts, cs. split; [apply table_get_In; exact E | auto].
  - intros [].
Qed.

Lemma children_known_sound (tbl : Table) (f : Filter) :
  children_known_b tbl = true -> children_known (store tbl) f.
Proof.
  intros H d c Hin. simpl in Hin.
  apply children_get in Hin. destruct Hin as (guts & cs & Hd & Hc & _).
  unfold children_known_b in H. rewrite forallb_forall in H.
  specialize (H _ Hd). simpl in H. rewrite forallb_forall in H.
  specialize (H _ Hc). unfold known_b in H.
  unfold known. simpl. unfold lookup.
  destruct (table_get tbl c) as [[g k]|]; [|discriminate].
  eexists. reflexivity.
Qed.

Lemma children_below_sound (rank : string -> nat) (tbl : Table) :
  children_below_b rank tbl = true -> children_below (store tbl) rank.
Proof.
  intros H d c Hin. simpl in Hin.
  apply children_get in Hin. destruct Hin as (guts & cs & Hd & Hc & _).
  unfold children_below_b in H. rewrite forallb_forall in H.
  specialize (H _ Hd). simpl in H. rewrite forallb_forall in H.
  specialize (H _ Hc). apply Nat.ltb_lt in H. exact H.
Qed.

Lemma monotonic_sound (tbl : Table) (f : Filter) :
  monotonic_b tbl f = true -> monotonic_containment (store tbl) f.
Proof.
  intros H d c n s m t Hin Ed Ec. simpl in Hin, Ed, Ec.
  apply children_get in Hin. destruct Hin as (guts & cs & Hd & Hc & G).
  unfold monotonic_b in H. rewrite forallb_forall in H.
  specialize (H _ Hd). simpl in H. rewrite forallb_forall in H.
  specialize (H _ Hc). apply N.leb_le in H.
  unfold count_of in H. rewrite Ec in H.
  unfold lookup in Ed. rewrite G in Ed. injection Ed as Ed.
  rewrite Ed in H. exact H.
Qed.

Lemma no_bytes_sound (tbl : Table) (f : Filter) :
  no_bytes_b tbl f = true -> empty_match_no_bytes (store tbl) f.
Proof.
  intros H d s E. simpl in E. unfold lookup in E.
  destruct (table_get tbl d) as [[guts cs]|] eqn:G; [|discriminate].
  apply table_get_In in G.
  unfold no_bytes_b in H. rewrite forallb_forall in H.
  specialize (H _ G). simpl in H. injection E as E. rewrite E in H.
  simpl in H. apply N.eqb_eq in H. exact H.
Qed.

(** *** The insertion sort meets the contract of [sort.Sort] *)

Lemma insert_perm (x : DirCountSize) (l : DCSs) :
  Permutation (insert x l) (x :: l).
Proof.
  induction l as [|y l IH]; simpl.
  - apply Permutation_refl.
  - destruct (DCSs_Less x y).
    + apply Permutation_refl.
    + apply perm_trans with (y :: x :: l).
      * apply perm_skip. exact IH.
      * apply perm_swap.
Qed.

Lemma insert_sorted (x : DirCountSize) (l : DCSs) :
  sorted_by_Less l -> sorted_by_Less (insert x l).
Proof.
  unfold sorted_by_Less. induction 1 as [|y l Hs IH Hy]; simpl.
  - constructor; constructor.
  - destruct (DCSs_Less x y) eqn:L.
    + constructor; [constructor; assumption|].
      unfold DCSs_Less in L. apply N.ltb_lt in L.
      constructor.
      * unfold DCSs_Less. apply N.ltb_ge. lia.
      * rewrite Forall_forall in Hy |- *. intros z Hz.
        specialize (Hy _ Hz). unfold DCSs_Less in Hy |- *.
        apply N.ltb_ge in Hy. apply N.ltb_ge. lia.
    + constructor; [exact IH|].
      rewrite Forall_forall in Hy |- *. intros z Hz.
      apply (Permutation_in _ (insert_perm x l)) in Hz.
      destruct Hz as [<- | Hz]; [exact L | exact (Hy _ Hz)].
Qed.

Lemma fold_insert_perm (l acc : DCSs) :
  Permutation (fold_left (fun sorted x => insert x sorted) l acc) (l ++ acc).
Proof.
  revert acc. induction l as [|x l IH]; intros acc; simpl.
  - apply Permutation_refl.
  - eapply perm_trans; [apply IH|].
    eapply perm_trans; [apply Permutation_app_head, insert_perm|].
    apply Permutation_sym, Permutation_middle.
Qed.

Lemma fold_insert_sorted (l acc : DCSs) :
  sorted_by_Less acc ->
  sorted_by_Less (fold_left (fun sorted x => insert x sorted) l acc).
Proof.
  revert acc. induction l as [|x l IH]; intros acc H; simpl.
  - exact H.
  - apply IH. apply insert_sorted. exact H.
Qed.

Lemma insertion_sort_perm (l : DCSs) : Permutation (insertion_sort l) l.
Proof.
  unfold insertion_sort. eapply perm_trans; [apply fold_insert_perm|].
  rewrite app_nil_r. apply Permutation_refl.
Qed.

Lemma insertion_sort_sorted (l : DCSs) : sorted_by_Less (insertion_sort l).
Proof.
  unfold insertion_sort. apply fold_insert_sorted. constructor.
Qed.

Definition sorter : Sorter :=
  mkSorter insertion_sort insertion_sort_perm insertion_sort_sorted.

End TableStore.

(** ** The properties of the specification *)

Section Properties.

Variables Filter error : Type.
Variable db : DB Filter error.
Variable sorter : Sorter.

Lemma sort_Sort_singleton (x : DirCountSize) : sort_Sort sorter [x] = [x].
Proof.
  apply Permutation_length_1_inv, Permutation_sym, sort_perm.
Qed.

(** With a depth of 0, [Where] returns the entry of what [where0] returns. *)
Lemma Where_depth0 (fuel : nat) (dir : string) (filter : Filter)
  (di : DirInfo) :
  where0 db fuel dir filter = Done (inr di) ->
  Where db sorter fuel dir filter 0 = Done (inr [Current di]).
Proof.
  intros H. unfold Where, Where_unsorted. rewrite H. simpl.
  rewrite sort_Sort_singleton. reflexivity.
Qed.

(** The outer loop on an empty frontier changes nothing. *)
Lemma Where_levels_nil (fuel : nat) (filter : Filter) (n : nat) (dcss : DCSs) :
  Where_levels db fuel filter n (dcss, []) = Done (dcss, []).
Proof.
  induction n as [|n IH]; simpl; [reflexivity | exact IH].
Qed.

Lemma Forall2_In_r {A B : Type} (R : A -> B -> Prop) (l : list A)
  (l' : list B) :
  Forall2 R l l' -> forall b, In b l' -> exists a, In a l /\ R a b.
Proof.
  induction 1 as [|a b l l' Hab _ IH]; intros x Hx.
  - destruct Hx.
  - destruct Hx as [<- | Hx].
    + exists a. split; [left; reflexivity | exact Hab].
    + destruct (IH _ Hx) as (a' & Ha' & HR).
      exists a'. split; [right; exact Ha' | exact HR].
Qed.

(** C3. For a directory present in the store, [Tree.DirInfo] returns without
    error a [DirInfo] whose [Current] is the directory with its filtered
    count and size, and whose [Children] are exactly the immediate children
    listed by the children index that have a filtered count above zero, in
    the order of the index, each with its own filtered count and size;
    children with a zero filtered count are left out. *)
Theorem DirInfo_children_qualifying
  (filter : Filter) (dir : string) (n s : N) :
  children_known db filter ->
  db_DirInfo db dir filter = inr (n, s) ->
  exists di,
    Tree_DirInfo db dir filter = (Some di, None) /\
    Current di = mkDCS dir n s /\
    Children di = qualifying db filter (db_Children db dir) /\
    forall x,
      In x (Children di) <->
      In (Dir x) (db_Children db dir) /\
      db_DirInfo db (Dir x) filter = inr (Count x, Size x) /\
      (0 < Count x)%N.
Proof.
  intros K E. exists (dirinfo_of db filter dir n s).
  split; [apply (Tree_DirInfo_known _ K E)|].
  split; [reflexivity|]. split; [reflexivity|].
  intros x. simpl. apply In_qualifying.
Qed.


(** C8. Collapsing keeps the filtered count: for a directory present in the
    store, the [Current.Count] of what [where0] returns is the
    [Current.Count] of [DirInfo(dir, filter)]. *)
Theorem where0_preserves_count
  (filter : Filter) (rank : string -> nat) (fuel : nat)
  (dir : string) (n s : N) :
  children_known db filter ->
  children_below db rank ->
  db_DirInfo db dir filter = inr (n, s) ->
  rank dir <= fuel ->
  exists di0 di,
    Tree_DirInfo db dir filter = (Some di0, None) /\
    where0 db fuel dir filter = Done (inr di) /\
    Count (Current di) = Count (Current di0).
Proof.
  intros K B E R.
  destruct (where0_known K B _ E R) as (dir' & s' & H0 & _).
  exists (dirinfo_of db filter dir n s), (dirinfo_of db filter dir' n s').
  split; [apply (Tree_DirInfo_known _ K E)|].
  split; [exact H0 | reflexivity].
Qed.


(** C2. [Where] returns an error exactly when the lookup of the requested
    directory fails, and then it is that error; when the lookup succeeds
    [Where] returns a result for every depth: the lookups made while
    collapsing and expanding are on paths of the children index and do not
    fail. *)
Theorem Where_error_only_initial
  (filter : Filter) (rank : string -> nat) (fuel : nat)
  (dir : string) (depth : Z) :
  children_known db filter ->
  children_below db rank ->
  rank dir <= fuel ->
  (forall err,
     Where db sorter fuel dir filter depth = Done (inl err) <->
     db_DirInfo db dir filter = inl err) /\
  (forall cs,
     db_DirInfo db dir filter = inr cs ->
     exists l, Where db sorter fuel dir filter depth = Done (inr l)).
Proof.
  intros K B R.
  assert (Ok : forall cs, db_DirInfo db dir filter = inr cs ->
               exists l, Where db sorter fuel dir filter depth = Done (inr l)).
  { intros [n s] E.
    destruct (Where_unsorted_known K B dir depth E R)
      as (dir' & s' & [dcss fr] & _ & _ & HU & _).
    exists (sort_Sort sorter dcss). unfold Where. rewrite HU. reflexivity. }
  split; [|exact Ok].
  intros err. split.
  - intros H. destruct (db_DirInfo db dir filter) as [e | cs] eqn:E.
    + apply Where_error in H.
      rewrite (Tree_DirInfo_unknown _ _ _ E) in H. simpl in H.
      congruence.
    + destruct (Ok cs eq_refl) as (l & Hl). congruence.
  - intros E. unfold Where, Where_unsorted.
    rewrite (where0_unknown _ _ _ _ E). reflexivity.
Qed.

(** C4. Every sequence that [Where] returns is sorted by size, largest
    first: of two adjacent entries, and of any two entries, the earlier has
    a [Size] at least that of the later. *)
Theorem Where_sorted
  (filter : Filter) (fuel : nat) (dir : string) (depth : Z) (l : DCSs) :
  Where db sorter fuel dir filter depth = Done (inr l) ->
  StronglySorted (fun a b => (Size b <= Size a)%N) l /\
  forall l1 a b l2, l = l1 ++ a :: b :: l2 -> (Size b <= Size a)%N.
Proof.
  intros H. apply Where_success in H. destruct H as (di & extra & _ & ->).
  assert (S : StronglySorted (fun a b => (Size b <= Size a)%N)
                (sort_Sort sorter (Current di :: extra))).
  { pose proof (sort_sorted sorter (Current di :: extra)) as HS.
    unfold sorted_by_Less in HS.
    induction HS as [|a l HS IH Ha]; constructor.
    - exact IH.
    - rewrite Forall_forall in Ha |- *. intros b Hb.
      specialize (Ha _ Hb). unfold DCSs_Less in Ha.
      apply N.ltb_ge in Ha. exact Ha. }
  split; [exact S|].
  intros l1 a b l2 E. rewrite E in S. clear E.
  induction l1 as [|x l1 IH]; simpl in S.
  - inversion S as [|? ? _ Ha]; subst.
    inversion Ha; subst. assumption.
  - inversion S; subst. apply IH. assumption.
Qed.

(** C5. For a directory present in the store and a depth [k >= 1], the
    result of [Where] at depth [k] consists of the entries of the result at
    depth [k - 1], all of them kept, together with new entries, each the
    collapsed result ([where0]) of a qualifying child of a directory that
    has its entry in the depth [k - 1] result. *)
Theorem Where_depth_step
  (filter : Filter) (rank : string -> nat) (fuel : nat)
  (dir : string) (n s : N) (k : Z) :
  children_known db filter ->
  children_below db rank ->
  db_DirInfo db dir filter = inr (n, s) ->
  rank dir <= fuel ->
  (1 <= k)%Z ->
  exists prev cur news,
    Where db sorter fuel dir filter (k - 1) = Done (inr prev) /\
    Where db sorter fuel dir filter k = Done (inr cur) /\
    Permutation cur (prev ++ news) /\
    Forall
      (fun e =>
         exists dip c die,
           In (Current dip) prev /\
           is_DirInfo db filter dip /\
           In c (Children dip) /\
           where0 db fuel (Dir c) filter = Done (inr die) /\
           e = Current die)
      news.
Proof.
  intros K B E R Hk.
  destruct (Where_unsorted_known K B dir (k - 1) E R)
    as (dir' & s' & [dcss fr] & H0 & HL & HU & HI).
  destruct (Where_level_step K B HI) as (dis & HF & HW & _).
  simpl in HF, HW.
  assert (HU' : Where_unsorted db fuel dir filter k =
                Done (inr (dcss ++ map Current dis, flat_map Children dis))).
  { unfold Where_unsorted. rewrite H0. simpl bind.
    replace (Z.to_nat k) with (S (Z.to_nat (k - 1))) by lia.
    rewrite Where_levels_succ. simpl in HL |- *. rewrite HL. simpl.
    rewrite HW. reflexivity. }
  exists (sort_Sort sorter dcss),
         (sort_Sort sorter (dcss ++ map Current dis)),
         (map Current dis).
  split; [unfold Where; rewrite HU; reflexivity|].
  split; [unfold Where; rewrite HU'; reflexivity|].
  split.
  - eapply perm_trans; [apply sort_perm|].
    apply Permutation_app_tail, Permutation_sym, sort_perm.
  - apply Forall_forall. intros e He.
    apply in_map_iff in He. destruct He as (die & <- & Hdie).
    destruct (Forall2_In_r HF _ Hdie) as (c & Hc & Hw).
    destruct HI as (_ & HI). simpl in HI.
    rewrite Forall_forall in HI.
    destruct (HI _ Hc) as (dip & Hp & Hd & Hin).
    exists dip, c, die. split; [|auto].
    apply (Permutation_in _ (Permutation_sym (sort_perm sorter dcss))).
    exact Hp.
Qed.

(** C7. For a directory known to the store whose filtered count is zero,
    [Tree.DirInfo] returns without error, with no children, and [Where]
    returns without error, for every depth, a single entry: the requested
    directory itself with count zero and size zero. Zero-count entries are
    left out among the children only; the entry of the requested directory
    is in the result. *)
Theorem Where_zero_count
  (filter : Filter) (fuel : nat) (dir : string) (s : N) (depth : Z) :
  children_known db filter ->
  monotonic_containment db filter ->
  empty_match_no_bytes db filter ->
  db_DirInfo db dir filter = inr (0%N, s) ->
  Tree_DirInfo db dir filter = (Some (mkDI (mkDCS dir 0 0) []), None) /\
  Where db sorter fuel dir filter depth = Done (inr [mkDCS dir 0 0]).
Proof.
  intros K M Z0 E.
  assert (s = 0%N) as -> by exact (Z0 _ _ E).
  assert (Q : qualifying db filter (db_Children db dir) = []).
  { destruct (qualifying db filter (db_Children db dir)) as [|x l] eqn:Q;
      [reflexivity|].
    assert (Hx : In x (qualifying db filter (db_Children db dir)))
      by (rewrite Q; left; reflexivity).
    apply In_qualifying in Hx. destruct Hx as (Hin & Ex & Pos).
    pose proof (M _ _ _ _ _ _ Hin E Ex). lia. }
  assert (D : Tree_DirInfo db dir filter =
              (Some (mkDI (mkDCS dir 0 0) []), None)).
  { rewrite (Tree_DirInfo_known _ K E). unfold dirinfo_of. rewrite Q.
    reflexivity. }
  split; [exact D|].
  assert (W : where0 db fuel dir filter = Done (inr (mkDI (mkDCS dir 0 0) []))).
  { unfold where0. rewrite D. destruct fuel; reflexivity. }
  unfold Where, Where_unsorted. rewrite W. simpl.
  rewrite Where_levels_nil. simpl. rewrite sort_Sort_singleton. reflexivity.
Qed.

(** C9. With a negative depth [Where] does what it does with depth 0: the
    expansion loop runs zero times. For a directory present in the store
    the common result is, without error, the single entry of the collapsed
    starting point. *)
Theorem Where_negative_depth_as_zero
  (filter : Filter) (rank : string -> nat) (fuel : nat)
  (dir : string) (depth : Z) :
  (depth < 0)%Z ->
  Where db sorter fuel dir filter depth = Where db sorter fuel dir filter 0 /\
  (forall n s,
     children_known db filter ->
     children_below db rank ->
     db_DirInfo db dir filter = inr (n, s) ->
     rank dir <= fuel ->
     exists di,
       where0 db fuel dir filter = Done (inr di) /\
       Where db sorter fuel dir filter depth = Done (inr [Current di])).
Proof.
  intros Hd.
  pose proof (Where_negative_depth db sorter filter fuel dir Hd) as Eq.
  split; [exact Eq|].
  intros n s K B E R.
  destruct (where0_known K B _ E R) as (dir' & s' & H0 & _).
  exists (dirinfo_of db filter dir' n s').
  split; [exact H0|]. rewrite Eq. apply Where_depth0. exact H0.
Qed.

(** C10. A sequence that [Where] returns without error is not empty, for
    every depth: it holds the [Current] entry of the collapsed start. *)
Theorem Where_nonempty
  (filter : Filter) (fuel : nat) (dir : string) (depth : Z) (l : DCSs) :
  Where db sorter fuel dir filter depth = Done (inr l) ->
  l <> [] /\
  exists di,
    where0 db fuel dir filter = Done (inr di) /\ In (Current di) l.
Proof.
  intros H. apply Where_success in H. destruct H as (di & extra & H0 & ->).
  assert (Hin : In (Current di) (sort_Sort sorter (Current di :: extra))).
  { apply (Permutation_in _ (Permutation_sym (sort_perm sorter _))).
    left. reflexivity. }
  split.
  - intros Hnil. rewrite Hnil in Hin. destruct Hin.
  - exists di. split; [exact H0 | exact Hin].
Qed.

End Properties.

(** ** The queries on Scenario A *)

Section ScenarioA.

Import TableStore.

(** Scenario B: ["/a/b"] is a branch point, depth 0 returns it alone. *)
Example scenarioB :
  Where dbA sorter 10 "/a/b" all 0 = Done (inr [mkDCS "/a/b" 6 50]).
Proof. vm_compute. reflexivity. Qed.

(** Scenario C: with depth 1 the two children are collapsed to
    ["/a/b/c/d"] and ["/a/b/e/f/g"]. *)
Example scenarioC :
  Where dbA sorter 10 "/a/b" all 1 =
  Done (inr [mkDCS "/a/b" 6 50; mkDCS "/a/b/c/d" 4 43;
             mkDCS "/a/b/e/f/g" 2 7]).
Proof. vm_compute. reflexivity. Qed.

(** Scenario D: an unknown directory. *)
Example scenarioD :
  Tree_DirInfo dbA "/nonexistent" all = (None, Some ErrDirNotFound).
Proof. vm_compute. reflexivity. Qed.

(** Two entries of equal size stay next to each other: the order is by
    [Size], largest first, and not strict. *)
Example twins_tie :
  Where (store twins) sorter 5 "/t" all 1 =
  Done (inr [mkDCS "/t" 2 8; mkDCS "/t/x" 1 4; mkDCS "/t/y" 1 4]).
Proof. vm_compute. reflexivity. Qed.

(** Without a budget the model of the loop stops short. *)
Example where0_needs_fuel :
  where0 dbA 1 "/" all = OutOfFuel.
Proof. vm_compute. reflexivity. Qed.

(** A children index that lists an undiscovered path breaks the store
    assumption [children_known]: the lookup of the listed child fails inside
    the first [Tree.DirInfo] call, or inside [where0] on a child, where
    [Where] dereferences the nil result. *)
Example ghost_child_error :
  Where (store ghost_child) sorter 5 "/p" all 0 = Done (inl ErrDirNotFound).
Proof. vm_compute. reflexivity. Qed.

Example ghost_grandchild_panic :
  Where (store ghost_grandchild) sorter 5 "/q" all 1 = Panic.
Proof. vm_compute. reflexivity. Qed.

Lemma scenarioA_children_known (f : Filter) : children_known dbA f.
Proof. apply children_known_sound. vm_compute. reflexivity. Qed.

Lemma scenarioA_children_below : children_below dbA rankA.
Proof. apply children_below_sound. vm_compute. reflexivity. Qed.

Lemma DirInfo_children_qualifying_witness :
  exists di,
    Tree_DirInfo dbA "/a/b" all = (Some di, None) /\
    Current di = mkDCS "/a/b" 6 50 /\
    Children di = qualifying dbA all (db_Children dbA "/a/b") /\
    forall x,
      In x (Children di) <->
      In (Dir x) (db_Children dbA "/a/b") /\
      db_DirInfo dbA (Dir x) all = inr (Count x, Size x) /\
      (0 < Count x)%N.
Proof.
  apply (@DirInfo_children_qualifying Filter error dbA all "/a/b" 6 50).
  - apply scenarioA_children_known.
  - vm_compute. reflexivity.
Defined.


Lemma where0_preserves_count_witness :
  exists di0 di,
    Tree_DirInfo dbA "/" all = (Some di0, None) /\
    where0 dbA 10 "/" all = Done (inr di) /\
    Count (Current di) = Count (Current di0).
Proof.
  apply (@where0_preserves_count Filter error dbA all rankA 10 "/" 6 50).
  - apply scenarioA_children_known.
  - apply scenarioA_children_below.
  - vm_compute. reflexivity.
  - vm_compute. lia.
Defined.


Lemma Where_error_only_initial_witness :
  (forall err,
     Where dbA sorter 10 "/nonexistent" all 2 = Done (inl err) <->
     db_DirInfo dbA "/nonexistent" all = inl err) /\
  (forall cs,
     db_DirInfo dbA "/nonexistent" all = inr cs ->
     exists l, Where dbA sorter 10 "/nonexistent" all 2 = Done (inr l)).
Proof.
  apply (@Where_error_only_initial Filter error dbA sorter all rankA 10
           "/nonexistent" 2).
  - apply scenarioA_children_known.
  - apply scenarioA_children_below.
  - vm_compute. lia.
Defined.

Lemma Where_sorted_witness :
  StronglySorted (fun a b => (Size b <= Size a)%N)
    [mkDCS "/a/b" 6 50; mkDCS "/a/b/c/d" 4 43; mkDCS "/a/b/c/d/2" 2 28;
     mkDCS "/a/b/e/f/g" 2 7; mkDCS "/a/b/c/d/1" 1 5] /\
  forall l1 a b l2,
    [mkDCS "/a/b" 6 50; mkDCS "/a/b/c/d" 4 43; mkDCS "/a/b/c/d/2" 2 28;
     mkDCS "/a/b/e/f/g" 2 7; mkDCS "/a/b/c/d/1" 1 5] = l1 ++ a :: b :: l2 ->
    (Size b <= Size a)%N.
Proof.
  apply (@Where_sorted Filter error dbA sorter all 10 "/" 2).
  vm_compute. reflexivity.
Defined.

Lemma Where_depth_step_witness :
  exists prev cur news,
    Where dbA sorter 10 "/" all (2 - 1) = Done (inr prev) /\
    Where dbA sorter 10 "/" all 2 = Done (inr cur) /\
    Permutation cur (prev ++ news) /\
    Forall
      (fun e =>
         exists dip c die,
           In (Current dip) prev /\
           is_DirInfo dbA all dip /\
           In c (Children dip) /\
           where0 dbA 10 (Dir c) all = Done (inr die) /\
           e = Current die)
      news.
Proof.
  apply (@Where_depth_step Filter error dbA sorter all rankA 10 "/" 6 50 2).
  - apply scenarioA_children_known.
  - apply scenarioA_children_below.
  - vm_compute. reflexivity.
  - vm_compute. lia.
  - lia.
Defined.

Lemma Where_zero_count_witness :
  Tree_DirInfo dbA "/a/b" user999 =
    (Some (mkDI (mkDCS "/a/b" 0 0) []), None) /\
  Where dbA sorter 10 "/a/b" user999 2 = Done (inr [mkDCS "/a/b" 0 0]).
Proof.
  apply (@Where_zero_count Filter error dbA sorter user999 10 "/a/b" 0 2).
  - apply scenarioA_children_known.
  - apply monotonic_sound. vm_compute. reflexivity.
  - apply no_bytes_sound. vm_compute. reflexivity.
  - vm_compute. reflexivity.
Defined.

Lemma Where_negative_depth_as_zero_witness :
  Where dbA sorter 10 "/" all (-3) = Where dbA sorter 10 "/" all 0 /\
  exists di,
    where0 dbA 10 "/" all = Done (inr di) /\
    Where dbA sorter 10 "/" all (-3) = Done (inr [Current di]).
Proof.
  destruct (@Where_negative_depth_as_zero Filter error dbA sorter all rankA 10
              "/" (-3)) as (Eq & Ok).
  - lia.
  - split; [exact Eq|].
    apply (Ok 6%N 50%N).
    + apply scenarioA_children_known.
    + apply scenarioA_children_below.
    + vm_compute. reflexivity.
    + vm_compute. lia.
Defined.

Lemma Where_nonempty_witness :
  [mkDCS "/a/b" 6 50; mkDCS "/a/b/c/d" 4 43; mkDCS "/a/b/e/f/g" 2 7] <> [] /\
  exists di,
    where0 dbA 10 "/a/b" all = Done (inr di) /\
    In (Current di)
       [mkDCS "/a/b" 6 50; mkDCS "/a/b/c/d" 4 43; mkDCS "/a/b/e/f/g" 2 7].
Proof.
  apply (@Where_nonempty Filter error dbA sorter all 10 "/a/b" 1).
  vm_compute. reflexivity.
Defined.

End ScenarioA.

(** * Further properties of the tree queries *)

(** ** [Tree.DirInfo] and [where0] on any store *)

Section AnyStore.

Variables Filter error : Type.
Variable db : DB Filter error.
Variable filter : Filter.

(** The lookup of the directory of [c] succeeded with the numbers [c]
    carries and a positive count: what [addChildInfo] checks before it
    appends [c]. *)
Definition looked_up (c : DirCountSize) : Prop :=
  db_DirInfo db (Dir c) filter = inr (Count c, Size c) /\ (0 < Count c)%N.

Lemma addChildInfo_looked_up (children : list string) :
  forall di,
    Forall looked_up (Children di) ->
    Forall looked_up (Children (fst (addChildInfo db di children filter))).
Proof.
  induction children as [|c rest IH]; intros di H; simpl.
  - exact H.
  - unfold getDirCountSizeInfo.
    destruct (db_DirInfo db c filter) as [e | [n s]] eqn:E; simpl.
    + exact H.
    + destruct (0 <? n)%N eqn:P.
      * apply IH. simpl. apply Forall_app. split; [exact H|].
        constructor; [|constructor].
        split; simpl; [exact E | apply N.ltb_lt; exact P].
      * apply IH. exact H.
Qed.

Lemma addChildInfo_Current (children : list string) :
  forall di, Current (fst (addChildInfo db di children filter)) = Current di.
Proof.
  induction children as [|c rest IH]; intros di; simpl.
  - reflexivity.
  - destruct (getDirCountSizeInfo db c filter) as [e | dcs]; simpl.
    + reflexivity.
    + destruct (0 <? Count dcs)%N; rewrite IH; reflexivity.
Qed.

(** Whatever the store and whether or not an error comes with it, a
    [DirInfo] returned by [Tree.DirInfo] is about the requested directory
    and lists only children that were looked up with a positive count. *)
Lemma Tree_DirInfo_looked_up (dir : string) (di : DirInfo) :
  fst (Tree_DirInfo db dir filter) = Some di ->
  Dir (Current di) = dir /\ Forall looked_up (Children di).
Proof.
  unfold Tree_DirInfo, getDirCountSizeInfo.
  destruct (db_DirInfo db dir filter) as [e | [n s]] eqn:E; simpl;
    [discriminate|].
  pose proof (addChildInfo_looked_up (db_Children db dir)
                (mkDI (mkDCS dir n s) []) (Forall_nil _)) as HL.
  pose proof (addChildInfo_Current (db_Children db dir)
                (mkDI (mkDCS dir n s) [])) as HC.
  destruct (addChildInfo db (mkDI (mkDCS dir n s) []) (db_Children db dir)
              filter) as [di' err]. simpl in *.
  intros H. injection H as <-. rewrite HC. simpl. auto.
Qed.

(** The loop of [where0], started on a [DirInfo] whose children were looked
    up, never dereferences nil, and what it returns is not a
    pass-through. *)
Lemma where0_loop_safe (fuel : nat) :
  forall di,
    Forall looked_up (Children di) ->
    where0_loop db fuel filter di <> Panic /\
    forall di', where0_loop db fuel filter di = Done di' ->
                IsSameAsChild di' = false /\ Forall looked_up (Children di').
Proof.
  induction fuel as [|fuel IH]; intros di H; simpl.
  - destruct (IsSameAsChild di) eqn:S.
    + split; [discriminate | intros di'; discriminate].
    + split; [discriminate|]. intros di' E. injection E as <-. auto.
  - destruct (IsSameAsChild di) eqn:S.
    + apply IsSameAsChild_true in S. destruct S as (c & Hc & _).
      rewrite Hc in *. simpl.
      inversion H as [|? ? (Ec & _) _]; subst.
      destruct (fst (Tree_DirInfo db (Dir c) filter)) as [di1|] eqn:D.
      * apply Tree_DirInfo_looked_up in D. destruct D as (_ & D).
        apply IH. exact D.
      * exfalso. unfold Tree_DirInfo, getDirCountSizeInfo in D.
        rewrite Ec in D. simpl in D.
        destruct (addChildInfo db _ _ filter). discriminate.
    + split; [discriminate|]. intros di' E. injection E as <-. auto.
Qed.

(** X1. On every store and with every budget, [where0] does not panic: the
    [DirInfo] it dereferences in its loop is never nil, because the child
    it descends to was looked up by the [DirInfo] call before. *)
Theorem where0_never_panics (fuel : nat) (dir : string) :
  where0 db fuel dir filter <> Panic.
Proof.
  unfold where0.
  destruct (Tree_DirInfo db dir filter) as [[di|] [e|]] eqn:D;
    try discriminate.
  - assert (H : fst (Tree_DirInfo db dir filter) = Some di)
      by (rewrite D; reflexivity).
    apply Tree_DirInfo_looked_up in H. destruct H as (_ & H).
    destruct (where0_loop_safe fuel di H) as (NP & _).
    destruct (where0_loop db fuel filter di); simpl; congruence.
  - exfalso. unfold Tree_DirInfo in D.
    destruct (getDirCountSizeInfo db dir filter); [discriminate|].
    destruct (addChildInfo db _ _ filter). discriminate.
Qed.

(** X2. On every store, a [DirInfo] that [where0] returns is not a
    pass-through ([IsSameAsChild] is false), and each of its children was
    looked up with a positive count. *)
Theorem where0_result_not_pass_through
  (fuel : nat) (dir : string) (di : DirInfo) :
  where0 db fuel dir filter = Done (inr di) ->
  IsSameAsChild di = false /\
  forall c, In c (Children di) ->
            db_DirInfo db (Dir c) filter = inr (Count c, Size c) /\
            (0 < Count c)%N.
Proof.
  unfold where0. intros H.
  destruct (Tree_DirInfo db dir filter) as [[di0|] [e|]] eqn:D;
    try discriminate.
  assert (H0 : fst (Tree_DirInfo db dir filter) = Some di0)
    by (rewrite D; reflexivity).
  apply Tree_DirInfo_looked_up in H0. destruct H0 as (_ & H0).
  destruct (where0_loop_safe fuel di0 H0) as (_ & R).
  destruct (where0_loop db fuel filter di0) as [di1| |] eqn:L;
    simpl in H; try discriminate.
  injection H as <-. destruct (R di1 eq_refl) as (NS & F).
  split; [exact NS|]. intros c Hc. rewrite Forall_forall in F.
  exact (F c Hc).
Qed.

End AnyStore.

(** ** A children index that lists an undiscovered path *)

Section GhostChild.

Variables Filter error : Type.
Variable db : DB Filter error.
Variable sorter : Sorter.
Variable filter : Filter.

Lemma addChildInfo_app_known (pre rest : list string) :
  forall di,
    Forall (known db filter) pre ->
    addChildInfo db di (pre ++ rest) filter =
    addChildInfo db
      (mkDI (Current di) (Children di ++ qualifying db filter pre))
      rest filter.
Proof.
  induction pre as [|c pre IH]; intros di H; simpl.
  - rewrite app_nil_r. destruct di; reflexivity.
  - inversion H as [|? ? [[n s] Hc] Hpre]; subst.
    unfold getDirCountSizeInfo. rewrite Hc. simpl.
    destruct (0 <? n)%N; rewrite IH by assumption; simpl.
    + rewrite <- app_assoc. reflexivity.
    + reflexivity.
Qed.

(** X4. When the lookup of a listed child fails, [Tree.DirInfo] returns
    both a [DirInfo] and the error of the first failing child: the
    [DirInfo] holds the qualifying children listed before that child and
    none listed after it. [where0] and [Where] called on that directory
    return the error, for every depth and budget. *)
Theorem DirInfo_failing_child
  (dir : string) (n s : N) (pre post : list string) (c : string)
  (err : error) (fuel : nat) (depth : Z) :
  db_DirInfo db dir filter = inr (n, s) ->
  db_Children db dir = pre ++ c :: post ->
  Forall (known db filter) pre ->
  db_DirInfo db c filter = inl err ->
  Tree_DirInfo db dir filter =
    (Some (mkDI (mkDCS dir n s) (qualifying db filter pre)), Some err) /\
  where0 db fuel dir filter = Done (inl err) /\
  Where db sorter fuel dir filter depth = Done (inl err).
Proof.
  intros E C K F.
  assert (D : Tree_DirInfo db dir filter =
              (Some (mkDI (mkDCS dir n s) (qualifying db filter pre)),
               Some err)).
  { unfold Tree_DirInfo, getDirCountSizeInfo. rewrite E. simpl.
    rewrite C, (addChildInfo_app_known _ _ K). simpl.
    unfold getDirCountSizeInfo. rewrite F. reflexivity. }
  assert (W : where0 db fuel dir filter = Done (inl err))
    by (unfold where0; rewrite D; reflexivity).
  split; [exact D|]. split; [exact W|].
  unfold Where, Where_unsorted. rewrite W. reflexivity.
Qed.

End GhostChild.

(** ** What [Where] lists, and how deep it can go *)

Section Listing.

Variables Filter error : Type.
Variable db : DB Filter error.
Variable sorter : Sorter.
Variable filter : Filter.
Variable rank : string -> nat.
Variable fuel : nat.

Hypothesis Hknown : children_known db filter.
Hypothesis Hbelow : children_below db rank.

(** An entry of a frontier: looked up, within the budget, and at a height
    below [b]. *)
Definition child_ok (b : nat) (c : DirCountSize) : Prop :=
  looked_up db filter c /\ rank (Dir c) <= fuel /\ rank (Dir c) < b.

(** An entry of the result: it carries the numbers of the store, it is the
    entry of a [DirInfo] that is not a pass-through, and it is the first
    entry or has a positive count. *)
Definition entry_ok (first e : DirCountSize) : Prop :=
  db_DirInfo db (Dir e) filter = inr (Count e, Size e) /\
  (e = first \/ (0 < Count e)%N) /\
  exists dip,
    Tree_DirInfo db (Dir e) filter = (Some dip, None) /\
    Current dip = e /\ IsSameAsChild dip = false.

Definition listing_inv (first : DirCountSize) (b : nat)
  (st : DCSs * list DirCountSize) : Prop :=
  Forall (entry_ok first) (fst st) /\ Forall (child_ok b) (snd st).

Lemma child_ok_frontier_ok (b : nat) (c : DirCountSize) :
  child_ok b c -> frontier_ok db filter rank fuel c.
Proof.
  intros ((E & _) & R & _). split; [eexists; exact E | exact R].
Qed.

(** What [where0] returns for a frontier entry. *)
Lemma where0_child (first : DirCountSize) (b : nat) (c : DirCountSize)
  (di : DirInfo) :
  child_ok b c ->
  where0 db fuel (Dir c) filter = Done (inr di) ->
  entry_ok first (Current di) /\ Forall (child_ok (pred b)) (Children di).
Proof.
  intros ((E & P) & R & Rb) H.
  destruct (where0_known Hknown Hbelow _ E R)
    as (dir' & s' & H0 & E' & R' & NS & _).
  rewrite H0 in H. injection H as <-. split.
  - split; [exact E'|]. split; [right; exact P|].
    exists (dirinfo_of db filter dir' (Count c) s').
    split; [apply (Tree_DirInfo_known _ Hknown E')|].
    split; [reflexivity | exact NS].
  - apply Forall_forall. intros x Hx. simpl in Hx.
    pose proof Hx as Hq. apply In_qualifying in Hq.
    destruct Hq as (Hin & Ex & Px).
    pose proof (Hbelow _ _ Hin) as Rx.
    split; [split; assumption|]. lia.
Qed.

Lemma listing_step (first : DirCountSize) (b : nat)
  (st : DCSs * list DirCountSize) :
  listing_inv first b st ->
  exists st',
    Where_children db fuel filter (snd st) (fst st, []) = Done st' /\
    listing_inv first (pred b) st'.
Proof.
  intros (He & Hc).
  assert (Hf : Forall (frontier_ok db filter rank fuel) (snd st)).
  { eapply Forall_impl; [|exact Hc]. intros c. apply child_ok_frontier_ok. }
  destruct (Where_children_spec Hknown Hbelow (fst st, []) Hf)
    as (dis & HF & _ & HW).
  eexists. split; [exact HW|]. simpl. clear HW Hf.
  assert (G : Forall (entry_ok first) (map Current dis) /\
              Forall (child_ok (pred b)) (flat_map Children dis)).
  { induction HF as [|c di cs dis Hcd _ IH]; simpl.
    - split; constructor.
    - inversion Hc as [|? ? Hc1 Hc2]; subst.
      destruct (where0_child first Hc1 Hcd) as (G1 & G2).
      destruct (IH Hc2) as (I1 & I2).
      split; [constructor; assumption|].
      apply Forall_app. split; assumption. }
  destruct G as (G1 & G2). split; simpl.
  - apply Forall_app. split; assumption.
  - exact G2.
Qed.

Lemma listing_levels (first : DirCountSize) (n : nat) :
  forall b st,
    listing_inv first b st ->
    exists st',
      Where_levels db fuel filter n st = Done st' /\
      listing_inv first (b - n) st'.
Proof.
  induction n as [|n IH]; intros b st H.
  - exists st. rewrite Nat.sub_0_r. auto.
  - destruct (listing_step H) as (st1 & H1 & I1).
    destruct (IH _ _ I1) as (st' & HL & I').
    exists st'. split.
    + simpl. rewrite H1. simpl. exact HL.
    + replace (b - S n) with (pred b - n) by lia. exact I'.
Qed.

(** Below height 0 there is no frontier left, and further levels add
    nothing. *)
Lemma listing_saturates (first : DirCountSize) (b : nat) :
  forall n st,
    listing_inv first b st ->
    b <= n ->
    Where_levels db fuel filter n st = Where_levels db fuel filter b st.
Proof.
  induction b as [|b IH]; intros n st H Hn.
  - destruct st as [dcss fr]. destruct H as (_ & Hc). simpl in Hc.
    destruct fr as [|c fr].
    + rewrite !Where_levels_nil. reflexivity.
    + inversion Hc as [|? ? (_ & _ & Hr) _]. lia.
  - destruct n as [|n]; [lia|].
    destruct (listing_step H) as (st1 & H1 & I1).
    simpl. rewrite H1. simpl. apply IH; [exact I1 | lia].
Qed.

(** The state before the outer loop. *)
Lemma listing_init (dir : string) (n s : N) :
  db_DirInfo db dir filter = inr (n, s) ->
  rank dir <= fuel ->
  exists di,
    where0 db fuel dir filter = Done (inr di) /\
    listing_inv (Current di) (rank dir) ([Current di], Children di).
Proof.
  intros E R.
  destruct (where0_known Hknown Hbelow _ E R)
    as (dir' & s' & H0 & E' & R' & NS & _).
  exists (dirinfo_of db filter dir' n s'). split; [exact H0|].
  split; simpl.
  - constructor; [|constructor].
    split; [exact E'|]. split; [left; reflexivity|].
    exists (dirinfo_of db filter dir' n s').
    split; [apply (Tree_DirInfo_known _ Hknown E')|].
    split; [reflexivity | exact NS].
  - apply Forall_forall. intros x Hx.
    pose proof Hx as Hq. apply In_qualifying in Hq.
    destruct Hq as (Hin & Ex & Px).
    pose proof (Hbelow _ _ Hin) as Rx.
    split; [split; assumption|]. lia.
Qed.

End Listing.

Section ListingProperties.

Variables Filter error : Type.
Variable db : DB Filter error.
Variable filter : Filter.
Variable rank : string -> nat.
Variable fuel : nat.

(** X5. For a directory present in a store that meets the assumptions,
    every entry that [Where] lists carries the count and size the store
    holds for its directory, is the entry of a directory that is not a
    pass-through, and, unless it is the entry of the collapsed start, has a
    positive count. *)
Theorem Where_entries
  (sorter : Sorter) (dir : string) (n s : N) (depth : Z) :
  children_known db filter ->
  children_below db rank ->
  db_DirInfo db dir filter = inr (n, s) ->
  rank dir <= fuel ->
  exists di l,
    where0 db fuel dir filter = Done (inr di) /\
    Where db sorter fuel dir filter depth = Done (inr l) /\
    forall e, In e l ->
      db_DirInfo db (Dir e) filter = inr (Count e, Size e) /\
      (e = Current di \/ (0 < Count e)%N) /\
      exists dip,
        Tree_DirInfo db (Dir e) filter = (Some dip, None) /\
        Current dip = e /\ IsSameAsChild dip = false.
Proof.
  intros K B E R.
  destruct (listing_init K B _ E R) as (di & H0 & I).
  destruct (listing_levels K B (Z.to_nat depth) I)
    as ([dcss fr] & HL & (He & _)).
  exists di, (sort_Sort sorter dcss). split; [exact H0|]. split.
  - unfold Where, Where_unsorted. rewrite H0. simpl.
    simpl in HL. rewrite HL. reflexivity.
  - intros e Hin. apply (Permutation_in _ (sort_perm sorter dcss)) in Hin.
    simpl in He. rewrite Forall_forall in He. exact (He e Hin).
Qed.

(** X6. A depth beyond the height of the requested directory adds nothing:
    for every depth of at least [rank dir], [Where] returns what it returns
    for the depth [rank dir]. *)
Theorem Where_depth_saturates
  (sorter : Sorter) (dir : string) (n s : N) (depth : Z) :
  children_known db filter ->
  children_below db rank ->
  db_DirInfo db dir filter = inr (n, s) ->
  rank dir <= fuel ->
  (Z.of_nat (rank dir) <= depth)%Z ->
  Where db sorter fuel dir filter depth =
  Where db sorter fuel dir filter (Z.of_nat (rank dir)).
Proof.
  intros K B E R Hd.
  destruct (listing_init K B _ E R) as (di & H0 & I).
  unfold Where, Where_unsorted. rewrite H0. simpl.
  rewrite (listing_saturates K B I (n := Z.to_nat depth)) by lia.
  rewrite Nat2Z.id. reflexivity.
Qed.

(** Two lists in the order of [sort.Sort] that hold the same entries, no
    two of the same size, are the same list. *)
Lemma sorted_unique (l1 : DCSs) :
  forall l2,
    sorted_by_Less l1 -> sorted_by_Less l2 ->
    Permutation l1 l2 ->
    NoDup (map Size l1) ->
    l1 = l2.
Proof.
  unfold sorted_by_Less.
  induction l1 as [|a l1 IH]; intros l2 S1 S2 P N.
  - apply Permutation_nil in P. congruence.
  - destruct l2 as [|b l2].
    + apply Permutation_sym, Permutation_nil in P. discriminate.
    + inversion S1 as [|? ? S1' F1]; subst.
      inversion S2 as [|? ? S2' F2]; subst.
      inversion N as [|? ? Na N']; subst.
      assert (a = b) as <-.
      { assert (Ha : In a (b :: l2))
          by (apply (Permutation_in _ P); left; reflexivity).
        assert (Hb : In b (a :: l1))
          by (apply (Permutation_in _ (Permutation_sym P)); left;
              reflexivity).
        destruct Ha as [-> | Ha]; [reflexivity|].
        destruct Hb as [-> | Hb]; [reflexivity|].
        exfalso. apply Na.
        rewrite Forall_forall in F1, F2.
        pose proof (F1 _ Hb) as L1. pose proof (F2 _ Ha) as L2.
        unfold DCSs_Less in L1, L2.
        apply N.ltb_ge in L1. apply N.ltb_ge in L2.
        replace (Size a) with (Size b) by lia.
        apply in_map. exact Hb. }
      f_equal. apply IH; try assumption.
      apply Permutation_cons_inv in P. exact P.
Qed.

(** X7. The result of [Where] depends on the sorting algorithm only in the
    order of entries of equal size: with any two sorters the results hold
    the same entries, and if no two entries have the same size the results
    are equal. *)
Theorem Where_sorter_independent
  (sorter1 sorter2 : Sorter) (dir : string) (depth : Z) (l1 : DCSs) :
  Where db sorter1 fuel dir filter depth = Done (inr l1) ->
  exists l2,
    Where db sorter2 fuel dir filter depth = Done (inr l2) /\
    Permutation l1 l2 /\
    (NoDup (map Size l1) -> l1 = l2).
Proof.
  unfold Where. intros H.
  apply bind_Done in H. destruct H as ([e | [dcss fr]] & HU & H);
    [discriminate|].
  injection H as <-. rewrite HU. simpl.
  exists (sort_Sort sorter2 dcss). split; [reflexivity|].
  assert (P : Permutation (sort_Sort sorter1 dcss) (sort_Sort sorter2 dcss)).
  { eapply perm_trans; [apply sort_perm|].
    apply Permutation_sym, sort_perm. }
  split; [exact P|].
  intros N. apply sorted_unique; auto using sort_sorted.
Qed.

End ListingProperties.

(** * [DCSs] as a [sort.Interface] *)

(** [d[i]] for a Go [int] index: out of range it panics ([None]). *)
Definition index {A : Type} (d : list A) (i : Z) : option A :=
  if (i <? 0)%Z then None else nth_error d (Z.to_nat i).

(** [d[k] = x] for an index in range. *)
Fixpoint set_nth {A : Type} (d : list A) (k : nat) (x : A) : list A :=
  match d, k with
  | [], _ => []
  | _ :: t, O => x :: t
  | h :: t, S k' => h :: set_nth t k' x
  end.

(** [DCSs.Len]. *)
Definition DCSs_Len (d : DCSs) : Z := Z.of_nat (List.length d).

(** [DCSs.Swap]: [d[i], d[j] = d[j], d[i]]. Both elements are read before
    either is written. *)
Definition DCSs_Swap (d : DCSs) (i j : Z) : run DCSs :=
  match index d j, index d i with
  | Some dj, Some di =>
      Done (set_nth (set_nth d (Z.to_nat i) dj) (Z.to_nat j) di)
  | _, _ => Panic
  end.

(** [DCSs.Less] on indices: [d[i].Size > d[j].Size]. *)
Definition DCSs_Less_at (d : DCSs) (i j : Z) : run bool :=
  match index d i, index d j with
  | Some di, Some dj => Done (DCSs_Less di dj)
  | _, _ => Panic
  end.

Section SortInterface.

Lemma index_Some {A : Type} (d : list A) (i : Z) :
  (exists x, index d i = Some x) <->
  (0 <= i < Z.of_nat (List.length d))%Z.
Proof.
  unfold index. destruct (i <? 0)%Z eqn:N.
  - apply Z.ltb_lt in N. split; [intros (x & H); discriminate | lia].
  - apply Z.ltb_ge in N. split.
    + intros (x & H).
      assert (nth_error d (Z.to_nat i) <> None) by congruence.
      apply nth_error_Some in H0. lia.
    + intros H.
      destruct (nth_error d (Z.to_nat i)) as [x|] eqn:E; [eauto|].
      apply nth_error_None in E. lia.
Qed.

Lemma set_nth_length {A : Type} (d : list A) :
  forall k x, List.length (set_nth d k x) = List.length d.
Proof.
  induction d as [|h t IH]; intros [|k] x; simpl; auto.
Qed.

Lemma nth_error_set_nth_same {A : Type} (d : list A) :
  forall k x, k < List.length d -> nth_error (set_nth d k x) k = Some x.
Proof.
  induction d as [|h t IH]; intros [|k] x H; simpl in *; try lia.
  - reflexivity.
  - apply IH. lia.
Qed.

Lemma nth_error_set_nth_other {A : Type} (d : list A) :
  forall k k' x, k <> k' -> nth_error (set_nth d k x) k' = nth_error d k'.
Proof.
  induction d as [|h t IH]; intros [|k] [|k'] x H; simpl; auto;
    try contradiction.
Qed.

(** Writing [x] over the element [y] at [k] trades [y] for [x]. *)
Lemma set_nth_perm {A : Type} (d : list A) :
  forall k x y,
    nth_error d k = Some y ->
    Permutation (x :: d) (y :: set_nth d k x).
Proof.
  induction d as [|h t IH]; intros [|k] x y H; simpl in *; try discriminate.
  - injection H as ->. apply perm_swap.
  - eapply perm_trans; [apply perm_swap|].
    eapply perm_trans; [apply perm_skip, (IH _ _ _ H)|].
    apply perm_swap.
Qed.

Lemma index_nth_error {A : Type} (d : list A) (i : Z) (x : A) :
  index d i = Some x ->
  nth_error d (Z.to_nat i) = Some x /\ Z.to_nat i < List.length d.
Proof.
  unfold index. destruct (i <? 0)%Z; [discriminate|].
  intros H. split; [exact H|]. apply nth_error_Some. congruence.
Qed.

(** X8. [DCSs.Less] is the strict order [sort.Sort] asks for: no element is
    less than itself, the order is transitive, and so is being not less
    (elements of equal size are interchangeable). *)
Theorem DCSs_Less_strict_weak_order :
  (forall a, DCSs_Less a a = false) /\
  (forall a b c,
     DCSs_Less a b = true -> DCSs_Less b c = true -> DCSs_Less a c = true) /\
  (forall a b c,
     DCSs_Less a b = false -> DCSs_Less b c = false ->
     DCSs_Less a c = false) /\
  (forall a b, DCSs_Less a b = true -> DCSs_Less b a = false).
Proof.
  unfold DCSs_Less. repeat split; intros.
  - apply N.ltb_irrefl.
  - rewrite N.ltb_lt in *. lia.
  - rewrite N.ltb_ge in *. lia.
  - rewrite N.ltb_lt in *. rewrite N.ltb_ge. lia.
Qed.

(** X9. [DCSs.Swap] panics exactly when an index is outside
    [0 <= i < Len]; otherwise it returns a slice of the same length that
    holds the same entries, with the entries at [i] and [j] exchanged and
    every other position unchanged. *)
Theorem DCSs_Swap_exchanges (d : DCSs) (i j : Z) :
  (DCSs_Swap d i j = Panic <->
   ~ ((0 <= i < DCSs_Len d)%Z /\ (0 <= j < DCSs_Len d)%Z)) /\
  forall d',
    DCSs_Swap d i j = Done d' ->
    DCSs_Len d' = DCSs_Len d /\
    Permutation d' d /\
    index d' i = index d j /\
    index d' j = index d i /\
    forall k, k <> i -> k <> j -> index d' k = index d k.
Proof.
  unfold DCSs_Swap, DCSs_Len.
  pose proof (index_Some d i) as Hi. pose proof (index_Some d j) as Hj.
  destruct (index d j) as [dj|] eqn:Ej; destruct (index d i) as [di|] eqn:Ei.
  2-4: split;
       [ split; [intros _ (A & B) | reflexivity];
         try (apply Hi in A; destruct A; discriminate);
         try (apply Hj in B; destruct B; discriminate)
       | intros d' H; discriminate ].
  split.
  - split; [discriminate|]. intros H. exfalso. apply H.
    split; [apply Hi | apply Hj]; eauto.
  - intros d' H. injection H as <-.
    destruct (index_nth_error _ _ Ei) as (Ni & Li).
    destruct (index_nth_error _ _ Ej) as (Nj & Lj).
    assert (Ii : (0 <= i)%Z) by (apply Hi; eauto).
    assert (Ij : (0 <= j)%Z) by (apply Hj; eauto).
    set (d1 := set_nth d (Z.to_nat i) dj).
    assert (N1 : nth_error d1 (Z.to_nat j) = Some dj).
    { unfold d1. destruct (Nat.eq_dec (Z.to_nat i) (Z.to_nat j)) as [e|ne].
      - rewrite <- e. apply nth_error_set_nth_same. exact Li.
      - rewrite nth_error_set_nth_other by exact ne. exact Nj. }
    assert (L1 : List.length d1 = List.length d)
      by apply set_nth_length.
    split; [rewrite set_nth_length, L1; reflexivity|].
    split.
    { apply Permutation_sym, Permutation_cons_inv with (a := dj).
      eapply perm_trans; [apply (set_nth_perm _ _ dj Ni)|].
      fold d1. apply (set_nth_perm _ _ di N1). }
    assert (Gj : index (set_nth d1 (Z.to_nat j) di) j = Some di).
    { unfold index. destruct (j <? 0)%Z eqn:N; [apply Z.ltb_lt in N; lia|].
      apply nth_error_set_nth_same. lia. }
    split; [|split; [exact Gj|]].
    + destruct (Z.eq_dec i j) as [->|ne].
      * rewrite Gj. congruence.
      * unfold index. destruct (i <? 0)%Z eqn:N; [apply Z.ltb_lt in N; lia|].
        rewrite nth_error_set_nth_other by lia.
        unfold d1. apply nth_error_set_nth_same. exact Li.
    + intros k Hki Hkj. unfold index.
      destruct (k <? 0)%Z eqn:N; [reflexivity|]. apply Z.ltb_ge in N.
      rewrite nth_error_set_nth_other by lia.
      unfold d1. apply nth_error_set_nth_other. lia.
Qed.

End SortInterface.

(** * The walk command: [walkDir] (cmd/walk.go) *)

Module Walk.

(** An output file, as the strings passed to its [WriteString], in
    order. *)
Definition File : Type := list string.

Definition newline : string := String (Ascii.ascii_of_nat 10) EmptyString.

(** The [n] files that [writeAllPathsToFiles] creates, nothing written to
    them yet. *)
Definition fresh (n : nat) : list File := repeat [] n.

(** The string [walkDir] writes for a path: [path + "\n"]. *)
Definition line (path : string) : string := path ++ newline.

Section WalkDir.

Variable error : Type.

(** The error, if any, that [files[i].WriteString(s)] returns: it is the
    operating system's to decide. *)
Variable WriteString_err : nat -> string -> option error.

(** The callback [walkDir] hands to [godirwalk.Walk]. Its closure holds
    [i], [max] and [files]; it writes to [files[i]], which panics when [i]
    is out of range, advances [i] cyclically and returns the write
    error. *)
Definition callback (max : nat) (st : nat * list File) (path : string)
  : run (nat * list File * option error) :=
  let '(i, files) := st in
  match nth_error files i with
  | None => Panic
  | Some f =>
      let err := WriteString_err i (line path) in
      let files := set_nth files i (f ++ [line path]) in
      let i := S i in
      let i := if (i =? max)%nat then 0 else i in
      Done (i, files, err)
  end.

(** [godirwalk.Walk] is not part of the sources. [paths] is the sequence of
    paths it visits: it calls the callback on each in turn and, as no
    [ErrorCallback] is set, stops with the first error the callback
    returns. [own] is the error, if any, with which the walker itself fails
    once it has made those visits (a root that cannot be read, an
    unreadable directory); it is nil ([None]) when the walker completes. *)
Fixpoint Walk (max : nat) (st : nat * list File) (paths : list string)
  (own : option error) : run (nat * list File * option error) :=
  match paths with
  | [] => Done (st, own)
  | path :: rest =>
      r <- callback max st path ;;
      match snd r with
      | Some err => Done r
      | None => Walk max (fst r) rest own
      end
  end.

(** [walkDir]: [i := 0], [max := len(files)], then the walk of
    [desiredDir], given by [paths] and [own]. The result is the files as
    written, and the error that [godirwalk.Walk] returns. *)
Definition walkDir (paths : list string) (own : option error)
  (files : list File) : run (list File * option error) :=
  r <- Walk (List.length files) (0, files) paths own ;;
  Done (snd (fst r), snd r).

(** The paths at the positions [k], [k + 1], ... that are congruent to [j]
    modulo [n]. *)
Fixpoint picks_from (n j k : nat) (paths : list string) : list string :=
  match paths with
  | [] => []
  | p :: rest =>
      if (k mod n =? j)%nat
      then p :: picks_from n j (S k) rest
      else picks_from n j (S k) rest
  end.

Definition picks (n j : nat) (paths : list string) : list string :=
  picks_from n j 0 paths.

(** No write of a line of [paths] fails. *)
Definition writes_succeed (paths : list string) : Prop :=
  Forall (fun p => forall i, WriteString_err i (line p) = None) paths.

Lemma picks_from_app (n j : nat) (l : list string) (p : string) :
  forall k,
    picks_from n j k (l ++ [p]) =
    picks_from n j k l ++
    (if ((k + List.length l) mod n =? j)%nat then [p] else []).
Proof.
  induction l as [|x l IH]; intros k; simpl.
  - rewrite Nat.add_0_r. destruct (k mod n =? j)%nat; reflexivity.
  - rewrite IH. replace (S k + List.length l) with (k + S (List.length l))
      by lia.
    destruct (k mod n =? j)%nat; reflexivity.
Qed.

Lemma Walk_app (max : nat) (l1 l2 : list string) (own : option error) :
  forall st,
    Walk max st (l1 ++ l2) own =
    (r <- Walk max st l1 None ;;
     match snd r with
     | Some err => Done r
     | None => Walk max (fst r) l2 own
     end).
Proof.
  induction l1 as [|p l1 IH]; intros st; simpl.
  - reflexivity.
  - destruct (callback max st p) as [[st' [e|]]| |]; simpl; auto.
Qed.

(** The state after a walk without write errors over [paths], started on
    [n] empty files: [q] full rounds and [i] more writes. *)
Definition dealt (n : nat) (paths : list string) (st : nat * list File)
  : Prop :=
  List.length (snd st) = n /\
  fst st < n /\
  exists q,
    List.length paths = q * n + fst st /\
    forall j, j < n ->
      exists f,
        nth_error (snd st) j = Some f /\
        f = map line (picks n j paths) /\
        List.length f = q + (if (j <? fst st)%nat then 1 else 0).

Lemma fresh_length (n : nat) : List.length (fresh n) = n.
Proof. apply repeat_length. Qed.

Lemma dealt_init (n : nat) :
  0 < n -> dealt n [] (0, fresh n).
Proof.
  intros H. split; [apply fresh_length|]. split; [exact H|].
  exists 0. split; [reflexivity|]. intros j Hj. exists []. simpl.
  split; [|auto].
  unfold fresh. rewrite nth_error_repeat by exact Hj. reflexivity.
Qed.

Lemma dealt_step (n : nat) (paths : list string) (p : string)
  (st : nat * list File) :
  dealt n paths st ->
  exists st',
    callback n st p = Done (st', WriteString_err (fst st) (line p)) /\
    dealt n (paths ++ [p]) st'.
Proof.
  destruct st as [i files]. intros (L & Hi & q & Hm & Hf).
  cbn [fst snd] in *. unfold callback.
  destruct (Hf i Hi) as (f & Ef & Hpf & Hlf).
  rewrite Ef.
  eexists. split; [reflexivity|]. unfold dealt. cbn [fst snd].
  assert (Hmod : (0 + List.length paths) mod n = i).
  { symmetry. apply Nat.mod_unique with (q := q); [exact Hi|].
    rewrite Hm, (Nat.mul_comm n q). reflexivity. }
  split; [rewrite set_nth_length; exact L|].
  destruct (S i =? n)%nat eqn:Wrap.
  - apply Nat.eqb_eq in Wrap. split; [lia|].
    exists (S q). split; [rewrite length_app; simpl; lia|].
    intros j Hj. destruct (Nat.eq_dec i j) as [<-|ne].
    + exists (f ++ [line p]).
      split; [apply nth_error_set_nth_same; lia|].
      split.
      * unfold picks. rewrite picks_from_app, Hmod, Nat.eqb_refl.
        rewrite map_app. simpl. rewrite Hpf. reflexivity.
      * rewrite length_app, Hlf, Nat.ltb_irrefl. simpl. lia.
    + destruct (Hf j Hj) as (g & Eg & Hpg & Hlg).
      exists g. split; [rewrite nth_error_set_nth_other by exact ne; exact Eg|].
      split.
      * unfold picks. rewrite picks_from_app, Hmod.
        apply Nat.eqb_neq in ne. rewrite ne, app_nil_r. exact Hpg.
      * rewrite Hlg. assert (j < i) by lia.
        apply Nat.ltb_lt in H. rewrite H. simpl. lia.
  - apply Nat.eqb_neq in Wrap. split; [lia|].
    exists q. split; [rewrite length_app; simpl; lia|].
    intros j Hj. destruct (Nat.eq_dec i j) as [<-|ne].
    + exists (f ++ [line p]).
      split; [apply nth_error_set_nth_same; lia|].
      split.
      * unfold picks. rewrite picks_from_app, Hmod, Nat.eqb_refl.
        rewrite map_app. simpl. rewrite Hpf. reflexivity.
      * rewrite length_app, Hlf, Nat.ltb_irrefl. simpl.
        assert (H : i < S i) by lia. apply Nat.ltb_lt in H. rewrite H. lia.
    + destruct (Hf j Hj) as (g & Eg & Hpg & Hlg).
      exists g. split; [rewrite nth_error_set_nth_other by exact ne; exact Eg|].
      split.
      * unfold picks. rewrite picks_from_app, Hmod.
        apply Nat.eqb_neq in ne. rewrite ne, app_nil_r. exact Hpg.
      * rewrite Hlg. destruct (j <? i)%nat eqn:C.
        -- apply Nat.ltb_lt in C. assert (H : j < S i) by lia.
           apply Nat.ltb_lt in H. rewrite H. reflexivity.
        -- apply Nat.ltb_ge in C. assert (H : S i <= j) by lia.
           apply Nat.ltb_ge in H. rewrite H. reflexivity.
Qed.

Lemma Walk_dealt (n : nat) (paths : list string) :
  0 < n ->
  writes_succeed paths ->
  exists st,
    (forall own, Walk n (0, fresh n) paths own = Done (st, own)) /\
    dealt n paths st.
Proof.
  intros Hn. induction paths as [|p paths IH] using rev_ind; intros W.
  - exists (0, fresh n).
    split; [intros own; reflexivity | apply dealt_init; exact Hn].
  - apply Forall_app in W. destruct W as (W & Wp).
    inversion Wp as [|? ? Wp' _]; subst.
    destruct (IH W) as (st & HW & HD).
    destruct (dealt_step p HD) as (st' & HC & HD').
    exists st'. split; [|exact HD'].
    intros own. rewrite Walk_app, HW. simpl. rewrite HC, Wp'. reflexivity.
Qed.

(** A write to a file in range trades nothing for the new line. *)
Lemma concat_set_nth (files : list File) :
  forall i f x,
    nth_error files i = Some f ->
    Permutation (List.concat (set_nth files i (f ++ [x])))
                (List.concat files ++ [x]).
Proof.
  induction files as [|g files IH]; intros [|i] f x H; simpl in *;
    try discriminate.
  - injection H as ->. rewrite <- !app_assoc.
    apply Permutation_app_head, Permutation_app_comm.
  - rewrite <- app_assoc. apply Permutation_app_head. apply (IH _ _ _ H).
Qed.

(** The walk writes the lines of a prefix of the paths, and of all of them
    when it meets no error. *)
Lemma Walk_writes (max : nat) (paths : list string) (own : option error) :
  forall st st' err,
    Walk max st paths own = Done (st', err) ->
    exists pre post,
      paths = pre ++ post /\
      Permutation (List.concat (snd st'))
                  (List.concat (snd st) ++ map line pre) /\
      (err = None -> post = []).
Proof.
  induction paths as [|p paths IH]; intros st st' err H; simpl in H.
  - injection H as <- _. exists [], []. simpl. rewrite app_nil_r. auto.
  - apply bind_Done in H. destruct H as ([st1 e1] & HC & H). simpl in H.
    assert (P1 : Permutation (List.concat (snd st1))
                             (List.concat (snd st) ++ [line p])).
    { unfold callback in HC. destruct st as [i files].
      destruct (nth_error files i) as [f|] eqn:E; [|discriminate].
      injection HC as <- _. simpl. apply concat_set_nth. exact E. }
    destruct e1 as [e|].
    + injection H as <- <-. exists [p], paths. simpl.
      split; [reflexivity|]. split; [exact P1 | discriminate].
    + apply IH in H. destruct H as (pre & post & -> & P & N).
      exists (p :: pre), post. split; [reflexivity|]. split; [|exact N].
      eapply perm_trans; [exact P|]. simpl.
      eapply perm_trans; [apply Permutation_app_tail, P1|].
      rewrite <- app_assoc. reflexivity.
Qed.

(** With a file to write to, the index stays in range and the walk does not
    panic. *)
Lemma Walk_in_range (max : nat) (paths : list string) (own : option error) :
  forall st,
    List.length (snd st) = max -> fst st < max ->
    Walk max st paths own <> Panic.
Proof.
  induction paths as [|p paths IH]; intros [i files] L R;
    cbn [fst snd Walk] in *.
  - discriminate.
  - unfold callback. destruct (nth_error files i) as [f|] eqn:E.
    + cbn [bind fst snd].
      destruct (WriteString_err i (line p)); [discriminate|].
      apply IH; cbn [fst snd].
      * rewrite set_nth_length. exact L.
      * destruct (S i =? max)%nat eqn:W; [lia|].
        apply Nat.eqb_neq in W. lia.
    + apply nth_error_None in E. lia.
Qed.

(** X10. With [n >= 1] output files, all empty at the start, and no write
    error, [walkDir] deals the paths that the walk visits round-robin: file
    [j] received, in the order of the walk, the lines of the paths at the
    positions congruent to [j] modulo [n]. The error [walkDir] returns is
    then the walker's own: nil exactly when the walker itself met none. *)
Theorem walkDir_round_robin
  (n : nat) (paths : list string) (own : option error) :
  0 < n ->
  writes_succeed paths ->
  exists files,
    walkDir paths own (fresh n) = Done (files, own) /\
    List.length files = n /\
    forall j, j < n ->
      nth_error files j = Some (map line (picks n j paths)).
Proof.
  intros Hn W. destruct (Walk_dealt Hn W) as ([i files] & HW & L & _ & q & _ & Hf).
  exists files. unfold walkDir. rewrite fresh_length, (HW own). simpl in *.
  split; [reflexivity|]. split; [exact L|].
  intros j Hj. destruct (Hf j Hj) as (f & E & -> & _). exact E.
Qed.

(** X11. Under the same conditions the files are balanced: a file never
    holds more lines than a file before it, and never fewer than one less. *)
Theorem walkDir_balanced
  (n : nat) (paths : list string) (own : option error) :
  0 < n ->
  writes_succeed paths ->
  exists files,
    walkDir paths own (fresh n) = Done (files, own) /\
    forall j1 j2 f1 f2,
      j1 <= j2 ->
      nth_error files j1 = Some f1 ->
      nth_error files j2 = Some f2 ->
      List.length f2 <= List.length f1 <= List.length f2 + 1.
Proof.
  intros Hn W. destruct (Walk_dealt Hn W) as ([i files] & HW & L & _ & q & _ & Hf).
  exists files. unfold walkDir. rewrite fresh_length, (HW own). simpl in *.
  split; [reflexivity|].
  intros j1 j2 f1 f2 Hj E1 E2.
  assert (R2 : j2 < n)
    by (rewrite <- L; apply nth_error_Some; congruence).
  destruct (Hf j1 ltac:(lia)) as (g1 & G1 & _ & L1).
  destruct (Hf j2 R2) as (g2 & G2 & _ & L2).
  assert (g1 = f1) by congruence. assert (g2 = f2) by congruence. subst.
  rewrite L1, L2.
  destruct (j1 <? i)%nat eqn:C1; destruct (j2 <? i)%nat eqn:C2; try lia.
  apply Nat.ltb_ge in C1. apply Nat.ltb_lt in C2. lia.
Qed.

(** X12. Whatever the files, the write errors and the walker's own error,
    when [walkDir] returns,
    what was written since the start is one line for each path of a prefix
    of the walk, once each and nothing else, and for every path of the walk
    when no error is returned. *)
Theorem walkDir_writes_each_once
  (paths : list string) (own : option error) (files files' : list File)
  (err : option error) :
  walkDir paths own files = Done (files', err) ->
  exists pre post,
    paths = pre ++ post /\
    Permutation (List.concat files') (List.concat files ++ map line pre) /\
    (err = None -> post = []).
Proof.
  unfold walkDir. intros H.
  apply bind_Done in H. destruct H as ([st' e] & HW & H).
  injection H as <- <-.
  apply Walk_writes in HW. exact HW.
Qed.

(** X13. [walkDir] panics (index out of range) exactly when it is given no
    output file and the walk visits at least one path. *)
Theorem walkDir_panics_without_files
  (paths : list string) (own : option error) (files : list File) :
  walkDir paths own files = Panic <-> files = [] /\ paths <> [].
Proof.
  unfold walkDir. split.
  - intros H. destruct files as [|f files].
    + split; [reflexivity|]. intros ->. discriminate.
    + exfalso.
      assert (N : Walk (List.length (f :: files)) (0, f :: files) paths own
                  <> Panic)
        by (apply Walk_in_range; simpl; [reflexivity | lia]).
      destruct (Walk (List.length (f :: files)) (0, f :: files) paths own);
        simpl in H; congruence.
  - intros (-> & N). destruct paths as [|p paths]; [contradiction|].
    reflexivity.
Qed.

(** X14. A failing write stops the walk: when the writes for the paths
    before [p] succeed and the write for [p] fails, [walkDir] returns that
    error, and no [WriteString] is issued for a path after [p]. *)
Theorem walkDir_stops_at_error
  (n : nat) (pre post : list string) (p : string) (e : error)
  (own : option error) :
  0 < n ->
  writes_succeed pre ->
  WriteString_err (List.length pre mod n) (line p) = Some e ->
  exists files,
    walkDir (pre ++ p :: post) own (fresh n) = Done (files, Some e) /\
    forall j, j < n ->
      nth_error files j = Some (map line (picks n j (pre ++ [p]))).
Proof.
  intros Hn W F.
  destruct (Walk_dealt Hn W) as (st & HW & HD).
  destruct (dealt_step p HD) as ([i' files] & HC & HD').
  assert (Hi : fst st = List.length pre mod n).
  { destruct HD as (_ & Hi & q & Hm & _).
    apply Nat.mod_unique with (q := q); [exact Hi|].
    rewrite Hm, (Nat.mul_comm n q). reflexivity. }
  rewrite Hi, F in HC.
  exists files. split.
  - unfold walkDir. rewrite fresh_length, Walk_app, (HW None). simpl.
    rewrite HC. reflexivity.
  - intros j Hj. destruct HD' as (_ & _ & q & _ & Hf). simpl in Hf.
    destruct (Hf j Hj) as (f & E & -> & _). exact E.
Qed.

End WalkDir.

End Walk.

(** * The multi command: rep groups and walk jobs (cmd/walk.go, multi.go) *)

Module Multi.

(** The five arguments of [scheduler.NewJob], which is not part of the
    sources: command line, rep group, req group, dependency group and
    dependency. *)
Record JobRequest : Type := NewJob {
  Cmd : string;
  RepGroup : string;
  ReqGroup : string;
  DepGroup : string;
  Dep : string
}.

Section Jobs.

(** [filepath.Base], [filepath.Join], the [%d] of [fmt.Sprintf] and
    [Scheduler.Executable] belong to libraries and are parameters. *)
Variable Base : string -> string.
Variable Join : list string -> string.
Variable itoa : Z -> string.
Variable Executable : string.

(** [scheduler.UniqueString], as the string its [k]-th call returns. *)
Variable UniqueString : nat -> string.

(** [repGrp]: ["wrstat-%s-%s-%s-%s"] of the command, the base name of the
    directory, the date stamp and the unique string. [date] is what
    [dateStamp] returns at the time of the call. *)
Definition repGrp (date cmd dir unique : string) : string :=
  "wrstat-" ++ cmd ++ "-" ++ Base dir ++ "-" ++ date ++ "-" ++ unique.

Definition statRepGrp (date dir unique : string) : string :=
  repGrp date "stat" dir unique.

Definition walkRepGrp (date dir unique : string) : string :=
  repGrp date "walk" dir unique.

Definition combineRepGrp (date dir unique : string) : string :=
  repGrp date "combine" dir unique.

(** The rep group [scheduleTidyJob] gives its job. *)
Definition tidyRepGrp (date finalDir unique : string) : string :=
  repGrp date "tidy" finalDir unique.

(** [desiredToJobsMultiplier]. *)
Definition desiredToJobsMultiplier : nat := 2.

(** The two jobs [scheduleWalkJobs] creates for one path. *)
Definition walkJob (date outputRoot unique : string) (n : Z)
  (path thisUnique : string) : JobRequest :=
  let outDir := Join [outputRoot; Base path; thisUnique] in
  NewJob
    (Executable ++ " walk -d " ++ thisUnique ++ " -o " ++ outDir ++ " -i " ++
     statRepGrp date path unique ++ " -n " ++ itoa n ++ " " ++ path)
    (walkRepGrp date path unique) "wrstat-walk" thisUnique "".

Definition combineJob (date outputRoot unique : string)
  (path thisUnique : string) : JobRequest :=
  let outDir := Join [outputRoot; Base path; thisUnique] in
  NewJob
    (Executable ++ " combine " ++ outDir)
    (combineRepGrp date path unique) "wrstat-stat" unique thisUnique.

(** [jobs[k] = job]: out of range it panics. *)
Definition assign (jobs : list (option JobRequest)) (k : nat)
  (job : JobRequest) : run (list (option JobRequest)) :=
  if (k <? List.length jobs)%nat then Done (set_nth jobs k (Some job))
  else Panic.

(** The loop of [scheduleWalkJobs], from index [i] on; [calls] counts the
    calls of [UniqueString] made so far. *)
Fixpoint walkJobs_loop (date outputRoot unique : string) (n : Z)
  (i : nat) (paths : list string) (jobs : list (option JobRequest))
  (calls : nat) : run (list (option JobRequest) * nat) :=
  match paths with
  | [] => Done (jobs, calls)
  | path :: rest =>
      let thisUnique := UniqueString calls in
      jobs <- assign jobs (i * 2)
                (walkJob date outputRoot unique n path thisUnique) ;;
      jobs <- assign jobs (i * 2 + 1)
                (combineJob date outputRoot unique path thisUnique) ;;
      walkJobs_loop date outputRoot unique n (S i) rest jobs (S calls)
  end.

(** [scheduleWalkJobs], up to [addJobsToQueue]: the slice of jobs it hands
    over, nil entries being [None]. *)
Definition scheduleWalkJobs (date outputRoot : string)
  (desiredPaths : list string) (unique : string) (n : Z) (calls : nat)
  : run (list (option JobRequest) * nat) :=
  let jobs :=
    repeat None (desiredToJobsMultiplier * List.length desiredPaths) in
  walkJobs_loop date outputRoot unique n 0 desiredPaths jobs calls.

(** The jobs of the paths, in order: for the [k]-th path its walk job, then
    its combine job, both with the [k]-th unique string drawn. *)
Fixpoint jobs_of (date outputRoot unique : string) (n : Z)
  (paths : list string) (calls : nat) : list (option JobRequest) :=
  match paths with
  | [] => []
  | path :: rest =>
      Some (walkJob date outputRoot unique n path (UniqueString calls)) ::
      Some (combineJob date outputRoot unique path (UniqueString calls)) ::
      jobs_of date outputRoot unique n rest (S calls)
  end.

Lemma string_app_inv_head (s a b : string) :
  (s ++ a)%string = (s ++ b)%string -> a = b.
Proof.
  induction s as [|c s IH]; simpl; intros H; [exact H|].
  injection H as H. apply IH. exact H.
Qed.

Lemma set_nth_middle {A : Type} (l1 : list A) (x y : A) (l2 : list A) :
  set_nth (l1 ++ x :: l2) (List.length l1) y = l1 ++ y :: l2.
Proof.
  induction l1 as [|h l1 IH]; simpl; [reflexivity|].
  rewrite IH. reflexivity.
Qed.

Lemma walkJobs_loop_fills (date outputRoot unique : string) (n : Z)
  (paths : list string) :
  forall i done calls,
    List.length done = i * 2 ->
    walkJobs_loop date outputRoot unique n i paths
      (done ++ repeat None (desiredToJobsMultiplier * List.length paths))
      calls =
    Done (done ++ jobs_of date outputRoot unique n paths calls,
          calls + List.length paths).
Proof.
  unfold desiredToJobsMultiplier.
  induction paths as [|path rest IH]; intros i done calls L.
  - simpl. rewrite Nat.add_0_r. reflexivity.
  - cbn [walkJobs_loop jobs_of List.length].
    replace (2 * S (List.length rest)) with (S (S (2 * List.length rest)))
      by lia.
    cbn [repeat]. unfold assign.
    rewrite length_app. cbn [List.length].
    assert (C1 : (i * 2 <? List.length done +
                            S (S (List.length
                                    (repeat (@None JobRequest)
                                            (2 * List.length rest)))))%nat
                 = true) by (apply Nat.ltb_lt; lia).
    rewrite C1. cbn [bind].
    rewrite <- L, set_nth_middle.
    replace (List.length done + 1) with
      (List.length (done ++ [Some (walkJob date outputRoot unique n path
                                     (UniqueString calls))]))
      by (rewrite length_app; reflexivity).
    set (w := Some (walkJob date outputRoot unique n path
                      (UniqueString calls))).
    replace (done ++ w :: None :: repeat None (2 * List.length rest))
      with ((done ++ [w]) ++ None :: repeat None (2 * List.length rest))
      by (rewrite <- app_assoc; reflexivity).
    assert (C2 : (List.length (done ++ [w]) <?
                  List.length ((done ++ [w]) ++ None ::
                               repeat (@None JobRequest)
                                      (2 * List.length rest)))%nat = true).
    { apply Nat.ltb_lt. rewrite (length_app (done ++ [w])). simpl. lia. }
    rewrite C2. cbn [bind]. rewrite set_nth_middle.
    set (c := Some (combineJob date outputRoot unique path
                      (UniqueString calls))).
    replace ((done ++ [w]) ++ c :: repeat None (2 * List.length rest))
      with ((done ++ [w; c]) ++ repeat None (2 * List.length rest))
      by (rewrite <- !app_assoc; reflexivity).
    rewrite (IH (S i) (done ++ [w; c]) (S calls)).
    + rewrite <- app_assoc. simpl. f_equal. f_equal. lia.
    + rewrite length_app. simpl. lia.
Qed.

(** X15. [scheduleWalkJobs] never indexes its slice out of range and leaves
    no nil entry in it: the slice holds, for each desired path in order,
    the walk job and then the combine job of that path, [2 * len] jobs in
    all. The two jobs of a path share the unique string drawn for it: it
    is the walk job's dependency group and the combine job's dependency.
    One unique string is drawn per path. *)
Theorem scheduleWalkJobs_fills
  (date outputRoot : string) (desiredPaths : list string) (unique : string)
  (n : Z) (calls : nat) :
  scheduleWalkJobs date outputRoot desiredPaths unique n calls =
    Done (jobs_of date outputRoot unique n desiredPaths calls,
          calls + List.length desiredPaths) /\
  List.length (jobs_of date outputRoot unique n desiredPaths calls) =
    2 * List.length desiredPaths /\
  Forall (fun j => j <> None)
         (jobs_of date outputRoot unique n desiredPaths calls) /\
  forall k path,
    nth_error desiredPaths k = Some path ->
    exists w c,
      nth_error (jobs_of date outputRoot unique n desiredPaths calls)
                (k * 2) = Some (Some w) /\
      nth_error (jobs_of date outputRoot unique n desiredPaths calls)
                (k * 2 + 1) = Some (Some c) /\
      w = walkJob date outputRoot unique n path (UniqueString (calls + k)) /\
      c = combineJob date outputRoot unique path (UniqueString (calls + k)) /\
      DepGroup w = Dep c /\
      DepGroup c = unique.
Proof.
  split; [|split; [|split]].
  - unfold scheduleWalkJobs.
    apply (walkJobs_loop_fills date outputRoot unique n desiredPaths 0 []).
    reflexivity.
  - revert calls. induction desiredPaths as [|p l IH]; intros calls; simpl.
    + reflexivity.
    + rewrite IH. lia.
  - revert calls. induction desiredPaths as [|p l IH]; intros calls; simpl.
    + constructor.
    + constructor; [discriminate|]. constructor; [discriminate|]. apply IH.
  - revert calls. induction desiredPaths as [|p l IH]; intros calls k path H.
    + destruct k; discriminate.
    + destruct k as [|k]; simpl in H.
      * injection H as ->. rewrite Nat.add_0_r.
        eexists. eexists. simpl. repeat split.
      * destruct (IH (S calls) k path H)
          as (w & c & Hw & Hc & Ew & Ec & D1 & D2).
        exists w, c. simpl.
        replace (calls + S k) with (S calls + k) by lia.
        repeat split; assumption.
Qed.

(** X16. Rep groups do not collide: the rep groups of stat, walk, combine
    and tidy jobs differ from one another whatever the directories, dates
    and unique strings, and two rep groups of the same command, directory
    and date differ when their unique strings differ. *)
Theorem repGrp_distinct :
  (forall d1 d2 p1 p2 u1 u2,
     statRepGrp d1 p1 u1 <> walkRepGrp d2 p2 u2 /\
     statRepGrp d1 p1 u1 <> combineRepGrp d2 p2 u2 /\
     statRepGrp d1 p1 u1 <> tidyRepGrp d2 p2 u2 /\
     walkRepGrp d1 p1 u1 <> combineRepGrp d2 p2 u2 /\
     walkRepGrp d1 p1 u1 <> tidyRepGrp d2 p2 u2 /\
     combineRepGrp d1 p1 u1 <> tidyRepGrp d2 p2 u2) /\
  (forall date cmd dir u1 u2,
     repGrp date cmd dir u1 = repGrp date cmd dir u2 -> u1 = u2).
Proof.
  split.
  - intros. unfold statRepGrp, walkRepGrp, combineRepGrp, tidyRepGrp, repGrp.
    repeat split; simpl; intros H; discriminate H.
  - unfold repGrp. intros date cmd dir u1 u2 H.
    repeat (apply string_app_inv_head in H). exact H.
Qed.

End Jobs.

End Multi.

(** * The OIDC callback (server/oidc.go) *)

Module OIDC.

(** A value held in an [interface{}]: a string, or a value of another
    type. A nil interface is [None]. *)
Inductive value : Type :=
| VString (s : string)
| VOther.

(** [session.Values], for the string keys the handlers use. *)
Definition Values : Type := string -> option value.

Definition set (values : Values) (key : string) (v : value) : Values :=
  fun k => if String.eqb k key then Some v else values k.

(** [s != i] for a string [s] and an interface value [i]: they are equal
    only when [i] holds a string, the same one. *)
Definition differs (s : string) (i : option value) : bool :=
  match i with
  | Some (VString s') => negb (String.eqb s s')
  | _ => true
  end.

(** An error: one returned by a library, or one made by [fmt.Errorf]. *)
Inductive error (E : Type) : Type :=
| Lib (e : E)
| Errorf (msg : string).
Arguments Lib {E} e.
Arguments Errorf {E} msg.

(** What a handler answers: [c.AbortWithError(status, err)], or, after
    [session.Save], [c.Redirect(status, location)] with the session values
    saved. *)
Inductive response (E : Type) : Type :=
| AbortWithError (status : nat) (err : error E)
| Redirect (status : nat) (location : string) (saved : Values).
Arguments AbortWithError {E} status err.
Arguments Redirect {E} status location saved.

Definition StatusFound : nat := 302.
Definition StatusUnauthorized : nat := 401.
Definition StatusForbidden : nat := 403.

Section Callback.

(** The libraries, as the handler sees them. *)
Variables E Jwt Token : Type.
(** [err.Error()]. *)
Variable ErrorString : E -> string.
(** [jv.New().VerifyIdToken(t)]: a token pointer and an error. *)
Variable VerifyIdToken : string -> option Jwt * option E.
(** [oauthConfig.Exchange] with the code and the code verifier. *)
Variable Exchange : string -> string -> E + Token.
(** [token.Extra(key)] and [token.AccessToken]. *)
Variable Extra : Token -> string -> option value.
Variable AccessToken : Token -> string.

(** [verifyToken]. *)
Definition verifyToken (t : string) : option Jwt * option (error E) :=
  match VerifyIdToken t with
  | (_, Some err) => (None, Some (Errorf (ErrorString err)))
  | (Some result, None) => (Some result, None)
  | (None, None) => (None, Some (Errorf "token could not be verified"))
  end.

(** [HandleOIDCCallback], for the outcome [session] of [sessionStore.Get]
    and the query parameters [query] of the request ([c.Query], empty for
    an absent parameter). The type assertion on the code verifier panics
    when the session holds no string there. *)
Definition HandleOIDCCallback (session : E + Values)
  (query : string -> string) : run (response E) :=
  match session with
  | inl err => Done (AbortWithError StatusForbidden (Lib err))
  | inr values =>
      if String.eqb (query "state") "" ||
         differs (query "state") (values "oauth_state")
      then Done (AbortWithError StatusForbidden
                   (Errorf "the state was not as expected"))
      else if negb (String.eqb (query "error") "")
      then Done (AbortWithError StatusForbidden
                   (Errorf ("authorization server returned an error: " ++
                            query "error")))
      else if String.eqb (query "code") ""
      then Done (AbortWithError StatusForbidden
                   (Errorf "the code was not returned or is not accessible"))
      else
        match values "oauth_code_verifier" with
        | Some (VString verifier) =>
            match Exchange (query "code") verifier with
            | inl err => Done (AbortWithError StatusUnauthorized (Lib err))
            | inr token =>
                match Extra token "id_token" with
                | Some (VString rawIDToken) =>
                    match snd (verifyToken rawIDToken) with
                    | Some err => Done (AbortWithError StatusForbidden err)
                    | None =>
                        Done (Redirect StatusFound "/"
                                (set values "access_token"
                                   (VString (AccessToken token))))
                    end
                | _ =>
                    Done (AbortWithError StatusUnauthorized
                            (Errorf "id token missing from OAuth2 token"))
                end
            end
        | _ => Panic
        end
  end.

(** The three checks the handler makes on the request before it reads the
    code verifier. *)
Definition request_accepted (values : Values) (query : string -> string)
  : Prop :=
  query "state" <> "" /\
  values "oauth_state" = Some (VString (query "state")) /\
  query "error" = "" /\
  query "code" <> "".

Lemma differs_false (s : string) (i : option value) :
  differs s i = false <-> i = Some (VString s).
Proof.
  unfold differs. destruct i as [[s'|]|].
  - rewrite negb_false_iff, String.eqb_eq. split; congruence.
  - split; discriminate.
  - split; discriminate.
Qed.

(** The checks, as the handler evaluates them. *)
Lemma checks_pass (values : Values) (query : string -> string) :
  (String.eqb (query "state") "" ||
   differs (query "state") (values "oauth_state") = false /\
   negb (String.eqb (query "error") "") = false /\
   String.eqb (query "code") "" = false) <->
  request_accepted values query.
Proof.
  unfold request_accepted.
  rewrite orb_false_iff, negb_false_iff, differs_false.
  rewrite String.eqb_eq, !String.eqb_neq. tauto.
Qed.

(** X17. [verifyToken] returns a token exactly when it returns no error,
    never both and never neither; the token is the one the verifier
    returned, without error. *)
Theorem verifyToken_token_xor_error (t : string) :
  (fst (verifyToken t) = None <-> snd (verifyToken t) <> None) /\
  forall jwt,
    fst (verifyToken t) = Some jwt <->
    VerifyIdToken t = (Some jwt, None).
Proof.
  unfold verifyToken.
  destruct (VerifyIdToken t) as [[j|] [e|]]; simpl; split;
    try (split; congruence);
    intros jwt; split; congruence.
Qed.

(** X18. [HandleOIDCCallback] saves an access token and redirects only
    after every check: the session was read, the state parameter is not
    empty and is the string stored in the session, no error parameter and a
    code are present, the exchange of the code with the stored verifier
    gave a token, that token carries a string ID token, and the verifier
    accepted it. Then, and only then, the answer is a redirect to ["/"]
    with the session values extended by the access token of the
    exchange. *)
Theorem callback_redirect_iff_verified
  (session : E + Values) (query : string -> string)
  (status : nat) (location : string) (saved : Values) :
  HandleOIDCCallback session query = Done (Redirect status location saved)
  <->
  exists values verifier token rawIDToken jwt,
    session = inr values /\
    request_accepted values query /\
    values "oauth_code_verifier" = Some (VString verifier) /\
    Exchange (query "code") verifier = inr token /\
    Extra token "id_token" = Some (VString rawIDToken) /\
    VerifyIdToken rawIDToken = (Some jwt, None) /\
    status = StatusFound /\ location = "/" /\
    saved = set values "access_token" (VString (AccessToken token)).
Proof.
  unfold HandleOIDCCallback. split.
  - destruct session as [err | values]; [discriminate|].
    pose proof (checks_pass values query) as CP.
    destruct (String.eqb (query "state") "" ||
              differs (query "state") (values "oauth_state"));
      [discriminate|].
    destruct (negb (String.eqb (query "error") "")); [discriminate|].
    destruct (String.eqb (query "code") ""); [discriminate|].
    destruct (values "oauth_code_verifier") as [[verifier|]|] eqn:V;
      try discriminate.
    destruct (Exchange (query "code") verifier) as [err | token] eqn:X;
      [discriminate|].
    destruct (Extra token "id_token") as [[raw|]|] eqn:I; try discriminate.
    unfold verifyToken.
    destruct (VerifyIdToken raw) as [[jwt|] [e|]] eqn:T; simpl;
      try discriminate.
    intros H. injection H as <- <- <-.
    exists values, verifier, token, raw, jwt.
    repeat split; try assumption; try reflexivity; apply CP; auto.
  - intros (values & verifier & token & raw & jwt &
            -> & RA & V & X & I & T & -> & -> & ->).
    apply checks_pass in RA. destruct RA as (C1 & C2 & C3).
    rewrite C1, C2, C3, V, X, I. unfold verifyToken. rewrite T. reflexivity.
Qed.

(** X19. [HandleOIDCCallback] panics exactly when the session was read and
    the request passes the state, error and code checks, but the session
    holds no string under ["oauth_code_verifier"]: the type assertion on
    it is unchecked. In every other case it answers. *)
Theorem callback_panics_iff_no_verifier
  (session : E + Values) (query : string -> string) :
  HandleOIDCCallback session query = Panic <->
  exists values,
    session = inr values /\
    request_accepted values query /\
    forall verifier, values "oauth_code_verifier" <> Some (VString verifier).
Proof.
  unfold HandleOIDCCallback. split.
  - destruct session as [err | values]; [discriminate|].
    pose proof (checks_pass values query) as CP.
    destruct (String.eqb (query "state") "" ||
              differs (query "state") (values "oauth_state"));
      [discriminate|].
    destruct (negb (String.eqb (query "error") "")); [discriminate|].
    destruct (String.eqb (query "code") ""); [discriminate|].
    destruct (values "oauth_code_verifier") as [[verifier|]|] eqn:V.
    + destruct (Exchange (query "code") verifier) as [err | token];
        [discriminate|].
      destruct (Extra token "id_token") as [[raw|]|]; try discriminate.
      destruct (snd (verifyToken raw)); discriminate.
    + intros _. exists values. split; [reflexivity|].
      split; [apply CP; auto | congruence].
    + intros _. exists values. split; [reflexivity|].
      split; [apply CP; auto | congruence].
  - intros (values & -> & RA & V).
    apply checks_pass in RA. destruct RA as (C1 & C2 & C3).
    rewrite C1, C2, C3.
    destruct (values "oauth_code_verifier") as [[verifier|]|]; try reflexivity.
    exfalso. apply (V verifier). reflexivity.
Qed.

End Callback.

End OIDC.

(** * The further properties on concrete inputs *)

Section Instances.

Import TableStore.

Lemma where0_result_not_pass_through_witness :
  IsSameAsChild
    (mkDI (mkDCS "/a/b" 6 50) [mkDCS "/a/b/c" 4 43; mkDCS "/a/b/e" 2 7])
  = false /\
  forall c,
    In c [mkDCS "/a/b/c" 4 43; mkDCS "/a/b/e" 2 7] ->
    db_DirInfo dbA (Dir c) all = inr (Count c, Size c) /\ (0 < Count c)%N.
Proof.
  apply (@where0_result_not_pass_through Filter error dbA all 10 "/"
           (mkDI (mkDCS "/a/b" 6 50)
                 [mkDCS "/a/b/c" 4 43; mkDCS "/a/b/e" 2 7])).
  vm_compute. reflexivity.
Defined.

Lemma DirInfo_failing_child_witness :
  Tree_DirInfo (store ghost_grandchild) "/q/r" all =
    (Some (mkDI (mkDCS "/q/r" 1 1) (qualifying (store ghost_grandchild) all [])),
     Some ErrDirNotFound) /\
  where0 (store ghost_grandchild) 5 "/q/r" all = Done (inl ErrDirNotFound) /\
  Where (store ghost_grandchild) sorter 5 "/q/r" all 3 =
    Done (inl ErrDirNotFound).
Proof.
  apply (@DirInfo_failing_child Filter error (store ghost_grandchild) sorter
           all "/q/r" 1 1 [] [] "/q/r/ghost" ErrDirNotFound 5 3).
  - vm_compute. reflexivity.
  - vm_compute. reflexivity.
  - constructor.
  - vm_compute. reflexivity.
Defined.

Lemma Where_entries_witness :
  exists di l,
    where0 dbA 10 "/" all = Done (inr di) /\
    Where dbA sorter 10 "/" all 2 = Done (inr l) /\
    forall e, In e l ->
      db_DirInfo dbA (Dir e) all = inr (Count e, Size e) /\
      (e = Current di \/ (0 < Count e)%N) /\
      exists dip,
        Tree_DirInfo dbA (Dir e) all = (Some dip, None) /\
        Current dip = e /\ IsSameAsChild dip = false.
Proof.
  apply (@Where_entries Filter error dbA all rankA 10 sorter "/" 6 50 2).
  - apply scenarioA_children_known.
  - apply scenarioA_children_below.
  - vm_compute. reflexivity.
  - vm_compute. lia.
Defined.

Lemma Where_depth_saturates_witness :
  Where dbA sorter 10 "/a/b" all 100 =
  Where dbA sorter 10 "/a/b" all (Z.of_nat (rankA "/a/b")).
Proof.
  apply (@Where_depth_saturates Filter error dbA all rankA 10 sorter
           "/a/b" 6 50 100).
  - apply scenarioA_children_known.
  - apply scenarioA_children_below.
  - vm_compute. reflexivity.
  - vm_compute. lia.
  - vm_compute. discriminate.
Defined.

Lemma Where_sorter_independent_witness :
  exists l2,
    Where dbA sorter 10 "/a/b" all 1 = Done (inr l2) /\
    Permutation
      [mkDCS "/a/b" 6 50; mkDCS "/a/b/c/d" 4 43; mkDCS "/a/b/e/f/g" 2 7] l2 /\
    (NoDup (map Size [mkDCS "/a/b" 6 50; mkDCS "/a/b/c/d" 4 43;
                      mkDCS "/a/b/e/f/g" 2 7]) ->
     [mkDCS "/a/b" 6 50; mkDCS "/a/b/c/d" 4 43; mkDCS "/a/b/e/f/g" 2 7] = l2).
Proof.
  apply (@Where_sorter_independent Filter error dbA all 10 sorter sorter
           "/a/b" 1).
  vm_compute. reflexivity.
Defined.

End Instances.

Section WalkInstances.

Import Walk.

(** Writes that never fail, and writes that fail on the line of ["b"]. *)
Definition never_fails (i : nat) (s : string) : option unit := None.

Definition fails_on_b (i : nat) (s : string) : option unit :=
  if String.eqb s (line "b") then Some tt else None.

Lemma never_fails_succeed (paths : list string) :
  writes_succeed never_fails paths.
Proof. apply Forall_forall. intros p _ i. reflexivity. Qed.

Lemma walkDir_round_robin_witness :
  exists files,
    walkDir never_fails ["a"; "b"; "c"; "d"; "e"] None (fresh 3) =
      Done (files, None) /\
    List.length files = 3 /\
    forall j, j < 3 ->
      nth_error files j =
      Some (map line (picks 3 j ["a"; "b"; "c"; "d"; "e"])).
Proof.
  apply (@walkDir_round_robin unit never_fails 3 ["a"; "b"; "c"; "d"; "e"]
           None).
  - lia.
  - apply never_fails_succeed.
Defined.

Lemma walkDir_balanced_witness :
  exists files,
    walkDir never_fails ["a"; "b"; "c"; "d"; "e"] (Some tt) (fresh 3) =
      Done (files, Some tt) /\
    forall j1 j2 f1 f2,
      j1 <= j2 ->
      nth_error files j1 = Some f1 ->
      nth_error files j2 = Some f2 ->
      List.length f2 <= List.length f1 <= List.length f2 + 1.
Proof.
  apply (@walkDir_balanced unit never_fails 3 ["a"; "b"; "c"; "d"; "e"]
           (Some tt)).
  - lia.
  - apply never_fails_succeed.
Defined.

Lemma walkDir_writes_each_once_witness :
  exists pre post,
    ["a"; "b"; "c"] = pre ++ post /\
    Permutation (List.concat [[line "a"]; [line "b"]])
                (List.concat (fresh 2) ++ map line pre) /\
    (Some tt = None -> post = []).
Proof.
  apply (@walkDir_writes_each_once unit fails_on_b ["a"; "b"; "c"] None
           (fresh 2) [[line "a"]; [line "b"]] (Some tt)).
  vm_compute. reflexivity.
Defined.

Lemma walkDir_stops_at_error_witness :
  exists files,
    walkDir fails_on_b (["a"] ++ "b" :: ["c"]) None (fresh 2) =
      Done (files, Some tt) /\
    forall j, j < 2 ->
      nth_error files j = Some (map line (picks 2 j (["a"] ++ ["b"]))).
Proof.
  apply (@walkDir_stops_at_error unit fails_on_b 2 ["a"] ["c"] "b" tt None).
  - lia.
  - apply Forall_forall. intros p [<- | []] i. vm_compute. reflexivity.
  - vm_compute. reflexivity.
Defined.

End WalkInstances.
